(** * The brachistochrone ODE component and the two example scripts

    A shallow embedding of [examples/trajectory/brachistochrone/brachistochrone.py]
    (class [BrachistochroneODE] and the driver selection of the script) and of
    [examples/openmdao/paraboloid_min.py] (argument parsing and the driver
    option), with the properties the specification states about them. *)

From Stdlib Require Import Reals Lra.
From stdpp Require Import gmap strings list.

Local Open Scope string_scope.

(** ** Array elements

    The component only multiplies, negates and takes sines and cosines of
    array elements, and fills fresh arrays with [0.0] and the literal
    [9.80665].  The element type is kept abstract: float64 with numpy's
    operations is one interpretation, the real numbers another. *)

Class Scalar (F : Type) := {
  fzero : F;
  fgravity : F;
  fmul : F → F → F;
  fneg : F → F;
  fcos : F → F;
  fsin : F → F
}.

#[global] Instance R_scalar : Scalar R := {|
  fzero := 0%R;
  fgravity := 9.80665%R;
  fmul := Rmult;
  fneg := Ropp;
  fcos := cos;
  fsin := sin
|}.

(** ** Exceptions *)

Inductive exn := KeyError | ValueError | AttributeError | SystemExit (status : Z).

Inductive result (A : Type) :=
  | Ok (a : A)
  | Raise (e : exn).
Arguments Ok {A} a.
Arguments Raise {A} e.

#[global] Instance result_ret : MRet result := λ A, Ok.
#[global] Instance result_bind : MBind result :=
  λ A B f m, match m with Ok a => f a | Raise e => Raise e end.

Definition succeeds {A} (m : result A) : Prop := ∃ a, m = Ok a.

Module Np.
Section Np.
Context {F : Type} `{Scalar F}.

(** [np.zeros(n)] *)
Definition zeros (n : nat) : list F := replicate n fzero.

(** [np.arange(n, dtype=int)] and [np.zeros(n, dtype=int)] *)
Definition arange (n : nat) : list nat := seq 0 n.
Definition izeros (n : nat) : list nat := replicate n 0.

Definition cos (a : list F) : list F := fcos <$> a.
Definition sin (a : list F) : list F := fsin <$> a.

(** unary minus on an array *)
Definition neg (a : list F) : list F := fneg <$> a.

(** [a * b] on one-dimensional arrays: an operand of shape [(1,)] is
    broadcast along the other, equal shapes multiply element by element,
    any other pair of shapes raises [ValueError]. *)
Definition mul (a b : list F) : result (list F) :=
  match a, b with
  | [x], _ => Ok (fmul x <$> b)
  | _, [y] => Ok ((λ x, fmul x y) <$> a)
  | _, _ => if decide (length a = length b) then Ok (zip_with fmul a b)
            else Raise ValueError
  end.

(** [dst[:] = src]: [src] is broadcast to the shape of [dst]. *)
Definition assign (dst src : list F) : result (list F) :=
  match src with
  | [x] => Ok (replicate (length dst) x)
  | _ => if decide (length src = length dst) then Ok src else Raise ValueError
  end.
End Np.
End Np.

(** ** The framework's containers

    OpenMDAO hands [compute] and [compute_partials] its own containers: a
    vector that maps a declared variable name to its array, and a Jacobian
    that maps a declared pair [(of, wrt)] to the values of the declared
    nonzeros.  Reading or writing an undeclared name raises [KeyError];
    writing copies the value into the declared array, broadcasting it. *)

Module Om.
Section Om.
Context {F : Type} `{Scalar F}.

Definition getitem (name : string) (vec : gmap string (list F)) : result (list F) :=
  match vec !! name with
  | Some a => Ok a
  | None => Raise KeyError
  end.

Definition setitem (name : string) (value : list F) (vec : gmap string (list F))
  : result (gmap string (list F)) :=
  match vec !! name with
  | Some old => new ← Np.assign old value; Ok (<[name := new]> vec)
  | None => Raise KeyError
  end.

(** [add_input(name, val=...)] and [add_output(name, val=...)] *)
Definition add_var (name : string) (value : list F) (vec : gmap string (list F))
  : result (gmap string (list F)) :=
  match vec !! name with
  | Some _ => Raise ValueError
  | None => Ok (<[name := value]> vec)
  end.

(** One declared sub-Jacobian: the nonzero at position [k] sits in row
    [rows !! k] and column [cols !! k] and has the value [val !! k]. *)
Record Subjac := { rows : list nat; cols : list nat; val : list F }.

(** [declare_partials(of=, wrt=, rows=, cols=)] *)
Definition declare_partials (of_ wrt : string) (rs cs : list nat)
    (jac : gmap (string * string) Subjac) : result (gmap (string * string) Subjac) :=
  if decide (length rs = length cs)
  then Ok (<[(of_, wrt) := {| rows := rs; cols := cs; val := Np.zeros (length rs) |}]> jac)
  else Raise ValueError.

(** [jacobian[of, wrt] = value] *)
Definition jac_setitem (of_ wrt : string) (value : list F)
    (jac : gmap (string * string) Subjac) : result (gmap (string * string) Subjac) :=
  match jac !! (of_, wrt) with
  | Some sj =>
      new ← Np.assign (val sj) value;
      Ok (<[(of_, wrt) := {| rows := rows sj; cols := cols sj; val := new |}]> jac)
  | None => Raise KeyError
  end.

(** The dense entry [(i, j)] of a sub-Jacobian; a position that is not
    declared holds zero. *)
Definition entry (sj : Subjac) (i j : nat) : F :=
  match list_find (λ p, p = (i, j)) (zip (rows sj) (cols sj)) with
  | Some (k, _) => default fzero (val sj !! k)
  | None => fzero
  end.

(** The derivative of output [of] at node [i] with respect to input [wrt]
    at index [j], as the framework reads it off the Jacobian; a pair that
    was never declared is zero everywhere. *)
Definition dense (jac : gmap (string * string) Subjac) (of_ wrt : string) (i j : nat) : F :=
  match jac !! (of_, wrt) with
  | Some sj => entry sj i j
  | None => fzero
  end.
End Om.
Arguments Subjac F : clear implicits.
End Om.

(** ** class BrachistochroneODE *)

Record Component (F : Type) := {
  num_nodes : nat;
  inputs : gmap string (list F);
  outputs : gmap string (list F);
  partials : gmap (string * string) (Om.Subjac F)
}.
Arguments num_nodes {F} _.
Arguments inputs {F} _.
Arguments outputs {F} _.
Arguments partials {F} _.

Section BrachistochroneODE.
Context {F : Type} `{Scalar F}.

(** [setup(self)], with [nn = self.options['num_nodes']], a node count. *)
Definition setup (nn : nat) : result (Component F) :=
  (* Inputs *)
  ins ← Om.add_var "v" (Np.zeros nn) ∅;
  ins ← Om.add_var "g" [fgravity] ins;
  ins ← Om.add_var "theta" (Np.zeros nn) ins;
  outs ← Om.add_var "xdot" (Np.zeros nn) ∅;
  outs ← Om.add_var "ydot" (Np.zeros nn) outs;
  outs ← Om.add_var "vdot" (Np.zeros nn) outs;
  (* Setup partials *)
  let arange := Np.arange nn in
  jac ← Om.declare_partials "vdot" "g" arange (Np.izeros nn) ∅;
  jac ← Om.declare_partials "vdot" "theta" arange arange jac;
  jac ← Om.declare_partials "xdot" "v" arange arange jac;
  jac ← Om.declare_partials "xdot" "theta" arange arange jac;
  jac ← Om.declare_partials "ydot" "v" arange arange jac;
  jac ← Om.declare_partials "ydot" "theta" arange arange jac;
  Ok {| num_nodes := nn; inputs := ins; outputs := outs; partials := jac |}.

(** [compute(self, inputs, outputs)]; the result is the [outputs] vector
    as the call leaves it.  The method only reads [inputs]: [np.cos],
    [np.sin], unary minus and [*] each build a new array, and the three
    assignments copy into the arrays of [outputs]. *)
Definition compute (inputs outputs : gmap string (list F))
  : result (gmap string (list F)) :=
  theta ← Om.getitem "theta" inputs;
  let cos_theta := Np.cos theta in
  let sin_theta := Np.sin theta in
  g ← Om.getitem "g" inputs;
  v ← Om.getitem "v" inputs;
  vdot ← Np.mul g cos_theta;
  outputs ← Om.setitem "vdot" vdot outputs;
  xdot ← Np.mul v sin_theta;
  outputs ← Om.setitem "xdot" xdot outputs;
  ydot ← Np.mul (Np.neg v) cos_theta;
  Om.setitem "ydot" ydot outputs.

(** [compute_partials(self, inputs, jacobian)]; the result is the
    [jacobian] as the call leaves it. *)
Definition compute_partials (inputs : gmap string (list F))
    (jacobian : gmap (string * string) (Om.Subjac F))
  : result (gmap (string * string) (Om.Subjac F)) :=
  theta ← Om.getitem "theta" inputs;
  let cos_theta := Np.cos theta in
  let sin_theta := Np.sin theta in
  g ← Om.getitem "g" inputs;
  v ← Om.getitem "v" inputs;
  jacobian ← Om.jac_setitem "vdot" "g" cos_theta jacobian;
  dvdot_dtheta ← Np.mul (Np.neg g) sin_theta;
  jacobian ← Om.jac_setitem "vdot" "theta" dvdot_dtheta jacobian;
  jacobian ← Om.jac_setitem "xdot" "v" sin_theta jacobian;
  dxdot_dtheta ← Np.mul v cos_theta;
  jacobian ← Om.jac_setitem "xdot" "theta" dxdot_dtheta jacobian;
  jacobian ← Om.jac_setitem "ydot" "v" (Np.neg cos_theta) jacobian;
  dydot_dtheta ← Np.mul v sin_theta;
  Om.jac_setitem "ydot" "theta" dydot_dtheta jacobian.

(** *** How the framework drives the component

    Between evaluations the framework writes new input values into the
    declared input arrays and then calls [compute] or [compute_partials]
    on the component's own containers. *)

Definition set_val (name : string) (value : list F) (c : Component F)
  : result (Component F) :=
  ins ← Om.setitem name value (inputs c);
  Ok {| num_nodes := num_nodes c; inputs := ins;
        outputs := outputs c; partials := partials c |}.

Definition run_compute (c : Component F) : result (Component F) :=
  outs ← compute (inputs c) (outputs c);
  Ok {| num_nodes := num_nodes c; inputs := inputs c;
        outputs := outs; partials := partials c |}.

Definition run_compute_partials (c : Component F) : result (Component F) :=
  jac ← compute_partials (inputs c) (partials c);
  Ok {| num_nodes := num_nodes c; inputs := inputs c;
        outputs := outputs c; partials := jac |}.

Inductive step : Component F → Component F → Prop :=
  | step_set_val name value c c' :
      set_val name value c = Ok c' → step c c'
  | step_compute c c' :
      run_compute c = Ok c' → step c c'
  | step_compute_partials c c' :
      run_compute_partials c = Ok c' → step c c'.

(** The states the component can be in: set up for [nn] nodes, then any
    number of input updates and evaluations. *)
Definition reachable (nn : nat) (c : Component F) : Prop :=
  ∃ c0, setup nn = Ok c0 ∧ rtc step c0 c.
End BrachistochroneODE.

(** ** Shapes

    The vectors and the Jacobian as [setup] declares them for [nn] nodes,
    with arbitrary values in the arrays. *)

Section Shapes.
Context {F : Type} `{Scalar F}.

Definition inputs_of (v : list F) (g : F) (theta : list F) : gmap string (list F) :=
  {[ "v" := v; "g" := [g]; "theta" := theta ]}.

Definition outputs_of (xdot ydot vdot : list F) : gmap string (list F) :=
  {[ "xdot" := xdot; "ydot" := ydot; "vdot" := vdot ]}.

Definition diagonal (nn : nat) (vals : list F) : Om.Subjac F :=
  {| Om.rows := Np.arange nn; Om.cols := Np.arange nn; Om.val := vals |}.

Definition column0 (nn : nat) (vals : list F) : Om.Subjac F :=
  {| Om.rows := Np.arange nn; Om.cols := Np.izeros nn; Om.val := vals |}.

Definition partials_of (nn : nat) (dvdot_dg dvdot_dtheta dxdot_dv dxdot_dtheta
    dydot_dv dydot_dtheta : list F) : gmap (string * string) (Om.Subjac F) :=
  {[ ("vdot", "g") := column0 nn dvdot_dg;
     ("vdot", "theta") := diagonal nn dvdot_dtheta;
     ("xdot", "v") := diagonal nn dxdot_dv;
     ("xdot", "theta") := diagonal nn dxdot_dtheta;
     ("ydot", "v") := diagonal nn dydot_dv;
     ("ydot", "theta") := diagonal nn dydot_dtheta ]}.

(** The arrays [compute] and [compute_partials] build from their inputs. *)
Definition vdot_of (g : F) (theta : list F) : list F := fmul g <$> Np.cos theta.
Definition xdot_of (v theta : list F) : list F := zip_with fmul v (Np.sin theta).
Definition ydot_of (v theta : list F) : list F := zip_with fmul (Np.neg v) (Np.cos theta).
Definition dvdot_dtheta_of (g : F) (theta : list F) : list F :=
  fmul (fneg g) <$> Np.sin theta.
Definition dxdot_dtheta_of (v theta : list F) : list F := zip_with fmul v (Np.cos theta).
Definition dydot_dtheta_of (v theta : list F) : list F := zip_with fmul v (Np.sin theta).

Record shaped (nn : nat) (c : Component F) : Prop := {
  shaped_num_nodes : num_nodes c = nn;
  shaped_inputs : ∃ v g theta,
    inputs c = inputs_of v g theta ∧ length v = nn ∧ length theta = nn;
  shaped_outputs : ∃ xdot ydot vdot,
    outputs c = outputs_of xdot ydot vdot ∧
    length xdot = nn ∧ length ydot = nn ∧ length vdot = nn;
  shaped_partials : ∃ a b c1 d e f,
    partials c = partials_of nn a b c1 d e f ∧
    length a = nn ∧ length b = nn ∧ length c1 = nn ∧
    length d = nn ∧ length e = nn ∧ length f = nn
}.

(** The declared row and column indices of every sub-Jacobian. *)
Definition pattern (jac : gmap (string * string) (Om.Subjac F))
  : gmap (string * string) (list nat * list nat) :=
  (λ sj, (Om.rows sj, Om.cols sj)) <$> jac.

(** The pattern for [nn] nodes: row [k] with column [k] in the five
    blocks with respect to [v] and [theta], every row with column 0 in
    the block of [vdot] with respect to [g]. *)
Definition declared_pattern (nn : nat) : gmap (string * string) (list nat * list nat) :=
  {[ ("vdot", "g") := (Np.arange nn, Np.izeros nn);
     ("vdot", "theta") := (Np.arange nn, Np.arange nn);
     ("xdot", "v") := (Np.arange nn, Np.arange nn);
     ("xdot", "theta") := (Np.arange nn, Np.arange nn);
     ("ydot", "v") := (Np.arange nn, Np.arange nn);
     ("ydot", "theta") := (Np.arange nn, Np.arange nn) ]}.
End Shapes.

(** ** Reading single numbers off an evaluation *)

Section Reading.
Context {F : Type} `{Scalar F}.

(** Output [of_] at node [i] after [compute(inputs, outputs)]. *)
Definition rate (of_ : string) (inputs outputs : gmap string (list F)) (i : nat) : F :=
  match compute inputs outputs with
  | Ok out => default fzero (out !! of_ ≫= λ a, a !! i)
  | Raise _ => fzero
  end.

(** The [k]-th value stored for [(of_, wrt)] after
    [compute_partials(inputs, jacobian)]. *)
Definition stored (of_ wrt : string) (inputs : gmap string (list F))
    (jacobian : gmap (string * string) (Om.Subjac F)) (k : nat) : F :=
  match compute_partials inputs jacobian with
  | Ok jac => default fzero (jac !! (of_, wrt) ≫= λ sj, Om.val sj !! k)
  | Raise _ => fzero
  end.
End Reading.

(** ** The command lines of the two scripts

    A command line is given by its pairs [(f, value)]: a string [f] that
    stands where the parser looks for an option, and the argument [value]
    that follows it ([--algorithm tr] is [("--algorithm", "tr")]).  The
    parser is [argparse.ArgumentParser()] with its defaults:

    - it knows its own [-h] and [--help], which print the usage and end the
      script with [SystemExit(0)], and the option strings that the script
      declares;
    - a long option may be abbreviated to a prefix that only one option
      string has, and may carry its value after an equals sign
      ([--algo=tr]); the argument that follows is then left over;
    - one-letter options may be written together ([-hh]);
    - [--] ends the options: what follows is positional;
    - an option used wrongly (a value that is not among the choices, a value
      given to [-h]) ends the script with [SystemExit(2)] where it stands;
      an abbreviation that several option strings share does so before
      anything else is looked at;
    - what the parser does not recognise is collected, and once the whole
      command line has been read it ends the script with [SystemExit(2)];
      the scripts declare no positional argument, so that every positional
      string is left over. *)

Module Argparse.
(** [add_argument(flag, default=..., choices=...)]; the attribute name is
    the option string without its dashes. *)
Record Argument := {
  flag : string;
  dest : string;
  default : string;
  choices : option (list string)
}.

(** What an option string stands for: the help of [ArgumentParser()], or
    storing the value of a declared argument. *)
Inductive action := Help | Store (a : Argument).

(** The option strings in the order they are registered: [-h] and [--help]
    by [ArgumentParser()], then one by each [add_argument]. *)
Definition option_strings (arguments : list Argument) : list (string * action) :=
  [("-h", Help); ("--help", Help)] ++ ((λ a, (flag a, Store a)) <$> arguments).

Definition defaults (arguments : list Argument) : gmap string string :=
  foldr (λ a ns, <[dest a := default a]> ns) ∅ arguments.

(** An option string given in full. *)
Definition lookup_flag (arguments : list Argument) (f : string) : option action :=
  (λ p, snd (snd p)) <$> list_find (λ p, fst p = f) (option_strings arguments).

(** [s.split('=', 1)], with [None] when [s] has no equals sign. *)
Fixpoint split_equals (s : string) : string * option string :=
  match s with
  | "" => ("", None)
  | String c rest =>
      if decide (String c "" = "=") then ("", Some rest)
      else let (name, explicit) := split_equals rest in (String c name, explicit)
  end.

(** What the parser makes of a string [f]: an option to run, with the value
    joined to it if there is one; an option used wrongly; an abbreviation
    that is not unique; the end of the options; or nothing it recognises. *)
Inductive reading :=
  | Run (act : action) (explicit : option string)
  | Invalid
  | Ambiguous
  | EndOfOptions
  | Unrecognized.

(** The letters written after a one-letter option that takes no value are
    one-letter options themselves, up to the first that takes a value. *)
Fixpoint cluster (arguments : list Argument) (letters : string) : bool :=
  match letters with
  | "" => true
  | String c rest =>
      match lookup_flag arguments ("-" +:+ String c "") with
      | Some Help => cluster arguments rest
      | Some (Store _) => true
      | None => false
      end
  end.

(** The option string [s] with the text [explicit] joined to it. *)
Definition with_explicit (arguments : list Argument) (s : string) (act : action)
    (explicit : string) : reading :=
  match act with
  | Store a => Run (Store a) (Some explicit)
  | Help =>
      if negb (String.prefix "--" s) && negb (bool_decide (explicit = ""))
         && cluster arguments explicit
      then Run Help None else Invalid
  end.

(** The option strings that [f] may abbreviate: for a long option those
    that start with the part of [f] before the equals sign; for a short one
    the option string of its first letter, the rest being joined to it, and
    those that start with [f]. *)
Definition abbreviations (arguments : list Argument) (f : string)
  : list (string * action * option string) :=
  if String.prefix "--" f then
    let (name, explicit) := split_equals f in
    (λ p, (p.1, p.2, explicit)) <$>
      List.filter (λ p, String.prefix name p.1) (option_strings arguments)
  else
    option_strings arguments ≫= λ p,
      if decide (p.1 = String.substring 0 2 f)
      then [(p.1, p.2, Some (String.substring 2 (String.length f - 2) f))]
      else if String.prefix f p.1 then [(p.1, p.2, None)] else [].

Definition classify (arguments : list Argument) (f : string) : reading :=
  if decide (f = "--") then EndOfOptions
  else if negb (String.prefix "-" f) then Unrecognized
  else
    match lookup_flag arguments f with
    | Some act => Run act None
    | None =>
        if decide (f = "-") then Unrecognized
        else
          let (name, explicit) := split_equals f in
          match explicit, lookup_flag arguments name with
          | Some e, Some act => with_explicit arguments name act e
          | _, _ =>
              match abbreviations arguments f with
              | [] => Unrecognized
              | [(s, act, None)] => Run act None
              | [(s, act, Some e)] => with_explicit arguments s act e
              | _ => Ambiguous
              end
          end
    end.

Definition check_value (a : Argument) (value : string) : result unit :=
  match choices a with
  | Some cs => if decide (value ∈ cs) then Ok () else Raise (SystemExit 2)
  | None => Ok ()
  end.

(** The command line is read from left to right; [extras] tells whether
    something has been left over so far. *)
Fixpoint parse (arguments : list Argument) (argv : list (string * string))
    (namespace : gmap string string) (extras : bool) : result (gmap string string) :=
  match argv with
  | [] => if extras then Raise (SystemExit 2) else Ok namespace
  | (f, value) :: rest =>
      match classify arguments f with
      | Run (Store a) None =>
          _ ← check_value a value;
          parse arguments rest (<[dest a := value]> namespace) extras
      | Run (Store a) (Some explicit) =>
          _ ← check_value a explicit;
          parse arguments rest (<[dest a := explicit]> namespace) true
      | Run Help _ => Raise (SystemExit 0)
      | Unrecognized => parse arguments rest namespace true
      | Invalid | Ambiguous | EndOfOptions => Raise (SystemExit 2)
      end
  end.

(** Whether an abbreviation that is not unique stands before the end of the
    options. *)
Fixpoint ambiguous (arguments : list Argument) (argv : list (string * string)) : bool :=
  match argv with
  | [] => false
  | (f, _) :: rest =>
      match classify arguments f with
      | EndOfOptions => false
      | Ambiguous => true
      | _ => ambiguous arguments rest
      end
  end.

(** [parser.parse_args()] *)
Definition parse_args (arguments : list Argument) (argv : list (string * string))
  : result (gmap string string) :=
  if ambiguous arguments argv then Raise (SystemExit 2)
  else parse arguments argv (defaults arguments) false.

(** [args.name] *)
Definition getattr (namespace : gmap string string) (name : string) : result string :=
  match namespace !! name with
  | Some value => Ok value
  | None => Raise AttributeError
  end.
End Argparse.

(** *** examples/openmdao/paraboloid_min.py *)

Module Paraboloid.
Definition algorithms : list string := ["ip"; "tr"; "mma"].

Definition parser : list Argparse.Argument :=
  [ {| Argparse.flag := "--algorithm"; Argparse.dest := "algorithm";
       Argparse.default := "ip"; Argparse.choices := Some algorithms |} ].

(** The options the script has set on its [ParOptDriver] when it calls
    [prob.run_driver()]. *)
Record ParOptDriver := { options : gmap string string }.

Definition main (argv : list (string * string)) : result ParOptDriver :=
  args ← Argparse.parse_args parser argv;
  let driver := {| options := ∅ |} in
  algorithm ← Argparse.getattr args "algorithm";
  Ok {| options := <["algorithm" := algorithm]> (options driver) |}.
End Paraboloid.

(** An occurrence the paraboloid parser accepts. *)
Definition accepted (p : string * string) : Prop :=
  p.1 = "--algorithm" ∧ p.2 ∈ Paraboloid.algorithms.

#[global] Instance accepted_dec (p : string * string) : Decision (accepted p).
Proof. unfold accepted. apply _. Defined.

(** *** examples/trajectory/brachistochrone/brachistochrone.py *)

Module Brachistochrone.
Definition parser : list Argparse.Argument :=
  [ {| Argparse.flag := "--optimizer"; Argparse.dest := "optimizer";
       Argparse.default := "ParOpt"; Argparse.choices := None |};
    {| Argparse.flag := "--algorithm"; Argparse.dest := "algorithm";
       Argparse.default := "tr"; Argparse.choices := None |} ].

Inductive setting := Str (s : string) | Int (n : Z).

(** The entries the script has written into [p.driver.options] and
    [p.driver.opt_settings] when it calls [p.setup]. *)
Record pyOptSparseDriver := {
  options : gmap string string;
  opt_settings : gmap string setting
}.

Definition set_option (name value : string) (d : pyOptSparseDriver) : pyOptSparseDriver :=
  {| options := <[name := value]> (options d); opt_settings := opt_settings d |}.

Definition set_opt_setting (name : string) (value : setting) (d : pyOptSparseDriver)
  : pyOptSparseDriver :=
  {| options := options d; opt_settings := <[name := value]> (opt_settings d) |}.

Definition main (argv : list (string * string)) : result pyOptSparseDriver :=
  args ← Argparse.parse_args parser argv;
  optimizer ← Argparse.getattr args "optimizer";
  algorithm ← Argparse.getattr args "algorithm";
  let driver := {| options := ∅; opt_settings := ∅ |} in
  if decide (optimizer = "SLSQP") then
    Ok (set_option "optimizer" "SLSQP" driver)
  else
    let driver := set_option "optimizer" "ParOpt" driver in
    if decide (algorithm = "tr") then
      Ok (set_opt_setting "algorithm" (Str "tr") driver)
    else
      let driver := set_opt_setting "algorithm" (Str "ip") driver in
      let driver := set_opt_setting "norm_type" (Str "infinity") driver in
      let driver := set_opt_setting "max_major_iters" (Int 1000) driver in
      let driver := set_opt_setting "barrier_strategy" (Str "mehrotra") driver in
      let driver := set_opt_setting "starting_point_strategy" (Str "affine_step") driver in
      Ok (set_opt_setting "qn_type" (Str "bfgs") driver).
End Brachistochrone.

(** ** Two concrete states over the reals

    Two nodes with speeds 3 and 4 on a wire at angle 0 under a gravity of 10:
    as the framework has just supplied the inputs, and after it has then
    called [compute]. *)

Definition example_state : Component R :=
  {| num_nodes := 2;
     inputs := inputs_of [3; 4]%R 10%R [0; 0]%R;
     outputs := outputs_of (Np.zeros 2) (Np.zeros 2) (Np.zeros 2);
     partials := partials_of 2 (Np.zeros 2) (Np.zeros 2) (Np.zeros 2)
                   (Np.zeros 2) (Np.zeros 2) (Np.zeros 2) |}.

Definition example_later : Component R :=
  {| num_nodes := 2;
     inputs := inputs_of [3; 4]%R 10%R [0; 0]%R;
     outputs := outputs_of (xdot_of [3; 4]%R [0; 0]%R) (ydot_of [3; 4]%R [0; 0]%R)
                  (vdot_of 10%R [0; 0]%R);
     partials := partials_of 2 (Np.zeros 2) (Np.zeros 2) (Np.zeros 2)
                   (Np.zeros 2) (Np.zeros 2) (Np.zeros 2) |}.

(** ** Layout of the containers *)

(** The declared names of a vector with the length of each array. *)
Definition shape {F : Type} (vec : gmap string (list F)) : gmap string nat :=
  length <$> vec.

(** The number of values each declared sub-Jacobian holds. *)
Definition value_lengths {F : Type} (jac : gmap (string * string) (Om.Subjac F))
  : gmap (string * string) nat :=
  (λ sj, length (Om.val sj)) <$> jac.

(** ** The optimization problem of examples/openmdao/paraboloid_min.py *)

Module ParaboloidProblem.
Local Open Scope R_scope.

(** [ExecComp('f = (x-3)**2 + x*y + (y+4)**2 - 3')] *)
Definition f (x y : R) : R := (x - 3) ^ 2 + x * y + (y + 4) ^ 2 - 3.

(** [ExecComp('c = x + y')] *)
Definition c (x y : R) : R := x + y.

(** [indeps.add_output('x', 3.0)] and [indeps.add_output('y', -4.0)] *)
Definition x_start : R := 3.
Definition y_start : R := -4.

(** [add_design_var('indeps.x', lower=-50, upper=50)], the same for
    [indeps.y], and [add_constraint('con.c', lower=0.0)]. *)
Definition feasible (x y : R) : Prop :=
  (-50 <= x <= 50) ∧ (-50 <= y <= 50) ∧ 0 <= c x y.
End ParaboloidProblem.

(** ** The phase of examples/trajectory/brachistochrone/brachistochrone.py *)

Module Phase.
(** [phase.add_state(name, fix_initial=, fix_final=, units=, rate_source=,
    targets=)]; without [targets] the state feeds no input of the ODE. *)
Record State := {
  name : string;
  fix_initial : bool;
  fix_final : bool;
  units : string;
  rate_source : string;
  targets : list string
}.

Definition states : list State :=
  [ {| name := "x"; fix_initial := true; fix_final := true; units := "m";
       rate_source := "xdot"; targets := [] |};
    {| name := "y"; fix_initial := true; fix_final := true; units := "m";
       rate_source := "ydot"; targets := [] |};
    {| name := "v"; fix_initial := true; fix_final := false; units := "m/s";
       rate_source := "vdot"; targets := ["v"] |} ].

(** [phase.add_control(name='theta', units='rad', lower=0, upper=np.pi,
    targets=['theta'])] *)
Record Control := {
  control_name : string;
  control_units : string;
  lower : R;
  upper : R;
  control_targets : list string
}.

Definition controls : list Control :=
  [ {| control_name := "theta"; control_units := "rad"; lower := 0%R; upper := PI;
       control_targets := ["theta"] |} ].

(** Every input name of the ODE that a state or a control feeds. *)
Definition targeted : list string :=
  (states ≫= targets) ++ (controls ≫= control_targets).
End Phase.

(** ** The driver configurations of the brachistochrone script *)

(** A value that does not start with a dash, so that the parser takes it as
    the argument of the option before it. *)
Definition plain (value : string) : Prop := String.prefix "-" value = false.

#[global] Instance plain_dec (value : string) : Decision (plain value).
Proof. unfold plain. apply _. Defined.

(** An occurrence the brachistochrone parser recognises. *)
Definition recognized (p : string * string) : Prop :=
  p.1 = "--optimizer" ∨ p.1 = "--algorithm".

#[global] Instance recognized_dec (p : string * string) : Decision (recognized p).
Proof. unfold recognized. apply _. Defined.

Definition slsqp_config : Brachistochrone.pyOptSparseDriver :=
  {| Brachistochrone.options := {[ "optimizer" := "SLSQP" ]};
     Brachistochrone.opt_settings := ∅ |}.

Definition paropt_tr_config : Brachistochrone.pyOptSparseDriver :=
  {| Brachistochrone.options := {[ "optimizer" := "ParOpt" ]};
     Brachistochrone.opt_settings := {[ "algorithm" := Brachistochrone.Str "tr" ]} |}.

Definition paropt_ip_config : Brachistochrone.pyOptSparseDriver :=
  {| Brachistochrone.options := {[ "optimizer" := "ParOpt" ]};
     Brachistochrone.opt_settings :=
       {[ "algorithm" := Brachistochrone.Str "ip";
          "norm_type" := Brachistochrone.Str "infinity";
          "max_major_iters" := Brachistochrone.Int 1000;
          "barrier_strategy" := Brachistochrone.Str "mehrotra";
          "starting_point_strategy" := Brachistochrone.Str "affine_step";
          "qn_type" := Brachistochrone.Str "bfgs" ]} |}.

(** ** The arrays in memory

    To say what a call leaves untouched, [compute] is also embedded with
    its arrays in memory.  Every [ndarray] sits at an address; the input and
    the output vector map a name to the address of its array;
    [inputs[name]] hands out that array itself (a view, not a copy); a numpy
    operation builds its result in a new array; [outputs[name] = value]
    copies the value into the array that the name already has.  The memory
    also holds the rest of the component, [self.options['num_nodes']] and
    the Jacobian. *)

Module Mem.
Section Mem.
Context {F : Type} `{Scalar F}.

Record memory := {
  heap : list (list F);
  inputs_at : gmap string nat;
  outputs_at : gmap string nat;
  option_num_nodes : nat;
  jacobian : gmap (string * string) (Om.Subjac F)
}.

(** A step of the program: it returns a value and the memory it leaves, or
    raises. *)
Definition action (A : Type) : Type := memory → result (A * memory).

#[global] Instance action_ret : MRet action := λ A a m, Ok (a, m).
#[global] Instance action_bind : MBind action :=
  λ A B f c m, match c m with Ok (a, m') => f a m' | Raise e => Raise e end.

Definition read (m : memory) (a : nat) : list F := default [] (heap m !! a).

Definition with_heap (h : list (list F)) (m : memory) : memory :=
  {| heap := h; inputs_at := inputs_at m; outputs_at := outputs_at m;
     option_num_nodes := option_num_nodes m; jacobian := jacobian m |}.

(** A new array holding [data], at the next free address. *)
Definition new_array (data : list F) : action nat :=
  λ m, Ok (length (heap m), with_heap (heap m ++ [data]) m).

Inductive vector := Inputs | Outputs.

Definition addresses (vec : vector) (m : memory) : gmap string nat :=
  match vec with Inputs => inputs_at m | Outputs => outputs_at m end.

(** [vec[name]]: the array of the variable itself. *)
Definition getitem (vec : vector) (name : string) : action nat :=
  λ m, match addresses vec m !! name with
       | Some a => Ok (a, m)
       | None => Raise KeyError
       end.

(** [vec[name] = value]: the value is copied, with broadcasting, into the
    array of the variable. *)
Definition setitem (vec : vector) (name : string) (value : nat) : action unit :=
  λ m, match addresses vec m !! name with
       | Some dst =>
           match Np.assign (read m dst) (read m value) with
           | Ok new => Ok ((), with_heap (<[dst := new]> (heap m)) m)
           | Raise e => Raise e
           end
       | None => Raise KeyError
       end.

Definition np_cos (a : nat) : action nat := λ m, new_array (Np.cos (read m a)) m.
Definition np_sin (a : nat) : action nat := λ m, new_array (Np.sin (read m a)) m.
Definition np_neg (a : nat) : action nat := λ m, new_array (Np.neg (read m a)) m.

Definition np_mul (a b : nat) : action nat :=
  λ m, match Np.mul (read m a) (read m b) with
       | Ok data => new_array data m
       | Raise e => Raise e
       end.

(** [compute(self, inputs, outputs)] *)
Definition compute : action unit :=
  theta ← getitem Inputs "theta";
  cos_theta ← np_cos theta;
  sin_theta ← np_sin theta;
  g ← getitem Inputs "g";
  v ← getitem Inputs "v";
  vdot ← np_mul g cos_theta;
  _ ← setitem Outputs "vdot" vdot;
  xdot ← np_mul v sin_theta;
  _ ← setitem Outputs "xdot" xdot;
  minus_v ← np_neg v;
  ydot ← np_mul minus_v cos_theta;
  setitem Outputs "ydot" ydot.

(** The values a vector holds. *)
Definition values (vec : vector) (m : memory) : gmap string (list F) :=
  read m <$> addresses vec m.

(** The memory as the framework lays it out: every variable has an array of
    its own. *)
Record well_formed (m : memory) : Prop := {
  wf_inputs : ∀ name a, inputs_at m !! name = Some a → (a < length (heap m))%nat;
  wf_outputs : ∀ name a, outputs_at m !! name = Some a → (a < length (heap m))%nat;
  wf_apart : ∀ n1 n2 a,
    inputs_at m !! n1 = Some a → outputs_at m !! n2 = Some a → False;
  wf_outputs_inj : ∀ n1 n2 a,
    outputs_at m !! n1 = Some a → outputs_at m !! n2 = Some a → n1 = n2
}.

(** From [m] to [m'] nothing changed but the arrays at the addresses
    [written] and arrays that did not exist in [m]. *)
Definition frame (written : list nat) (m m' : memory) : Prop :=
  inputs_at m' = inputs_at m ∧ outputs_at m' = outputs_at m ∧
  option_num_nodes m' = option_num_nodes m ∧ jacobian m' = jacobian m ∧
  (length (heap m) ≤ length (heap m'))%nat ∧
  ∀ a, (a < length (heap m))%nat → a ∉ written → heap m' !! a = heap m !! a.
End Mem.
Arguments memory F : clear implicits.
Arguments action F A : clear implicits.
End Mem.

(** Two nodes in memory: the arrays of [v], [g], [theta], then those of
    [xdot], [ydot], [vdot]. *)
Definition example_memory : Mem.memory R :=
  {| Mem.heap := [[3; 4]; [10]; [0; 0]; [0; 0]; [0; 0]; [0; 0]]%R;
     Mem.inputs_at := {[ "v" := 0; "g" := 1; "theta" := 2 ]};
     Mem.outputs_at := {[ "xdot" := 3; "ydot" := 4; "vdot" := 5 ]};
     Mem.option_num_nodes := 2;
     Mem.jacobian := partials_of 2 (Np.zeros 2) (Np.zeros 2) (Np.zeros 2)
                       (Np.zeros 2) (Np.zeros 2) (Np.zeros 2) |}.

(** ** Arrays: auxiliary facts *)

Lemma bind_Ok {A B} (a : A) (f : A → result B) : (Ok a ≫= f) = f a.
Proof. reflexivity. Qed.

Lemma bind_Ok_inv {A B} (m : result A) (f : A → result B) (b : B) :
  m ≫= f = Ok b → ∃ a, m = Ok a ∧ f a = Ok b.
Proof. destruct m as [a|e]; [eauto | discriminate]. Qed.

Section NpFacts.
Context {F : Type} `{Scalar F}.

Lemma mul_broadcast_l (x : F) (b : list F) : Np.mul [x] b = Ok (fmul x <$> b).
Proof. reflexivity. Qed.

Lemma mul_same_length (a b : list F) :
  length a = length b → Np.mul a b = Ok (zip_with fmul a b).
Proof.
  intros Hlen. unfold Np.mul.
  destruct a as [|x [|x' a]], b as [|y [|y' b]]; try discriminate; try reflexivity.
  rewrite decide_True by exact Hlen. reflexivity.
Qed.

Lemma assign_same_length (dst src : list F) :
  length src = length dst → Np.assign dst src = Ok src.
Proof.
  intros Hlen. unfold Np.assign. destruct src as [|x [|x' src]].
  - rewrite decide_True by exact Hlen. reflexivity.
  - rewrite <- Hlen. reflexivity.
  - rewrite decide_True by exact Hlen. reflexivity.
Qed.

Lemma assign_length (dst src new : list F) :
  Np.assign dst src = Ok new → length new = length dst.
Proof.
  unfold Np.assign. destruct src as [|x [|x' src]].
  - case_decide; [|discriminate]. intros [= <-]. assumption.
  - intros [= <-]. apply length_replicate.
  - case_decide; [|discriminate]. intros [= <-]. assumption.
Qed.

Lemma length_one (l : list F) : length l = 1 → ∃ x, l = [x].
Proof. destruct l as [|x [|]]; try discriminate. eauto. Qed.

Lemma lookup_zip_with_mul (a b : list F) (i : nat) (x y : F) :
  a !! i = Some x → b !! i = Some y → zip_with fmul a b !! i = Some (fmul x y).
Proof. intros Ha Hb. rewrite lookup_zip_with, Ha. simpl. rewrite Hb. reflexivity. Qed.
End NpFacts.

(** ** Closed forms of the three methods *)

Ltac len :=
  unfold Np.cos, Np.sin, Np.neg, Np.zeros, Np.arange, Np.izeros; simpl;
  rewrite ?length_zip_with, ?length_fmap, ?length_replicate, ?length_seq; lia.

Section ClosedForms.
Context {F : Type} `{Scalar F}.


Lemma length_cos (a : list F) : length (Np.cos a) = length a.
Proof. apply length_fmap. Qed.
Lemma length_sin (a : list F) : length (Np.sin a) = length a.
Proof. apply length_fmap. Qed.
Lemma length_neg (a : list F) : length (Np.neg a) = length a.
Proof. apply length_fmap. Qed.

Lemma length_zip_mul (a b : list F) :
  length a = length b → length (zip_with fmul a b) = length b.
Proof. intros Hlen. rewrite length_zip_with. lia. Qed.

Lemma setitem_same_length (name : string) (value old : list F) (vec : gmap string (list F)) :
  vec !! name = Some old → length value = length old →
  Om.setitem name value vec = Ok (<[name := value]> vec).
Proof.
  intros Hlook Hlen. unfold Om.setitem. rewrite Hlook.
  rewrite (assign_same_length _ _ Hlen). reflexivity.
Qed.

Lemma jac_setitem_same_length (of_ wrt : string) (value : list F) (sj : Om.Subjac F)
    (jac : gmap (string * string) (Om.Subjac F)) :
  jac !! (of_, wrt) = Some sj → length value = length (Om.val sj) →
  Om.jac_setitem of_ wrt value jac =
    Ok (<[(of_, wrt) := {| Om.rows := Om.rows sj; Om.cols := Om.cols sj; Om.val := value |}]> jac).
Proof.
  intros Hlook Hlen. unfold Om.jac_setitem. rewrite Hlook.
  rewrite (assign_same_length _ _ Hlen). reflexivity.
Qed.

Lemma add_var_fresh (name : string) (value : list F) (vec : gmap string (list F)) :
  vec !! name = None → Om.add_var name value vec = Ok (<[name := value]> vec).
Proof. intros Hfresh. unfold Om.add_var. rewrite Hfresh. reflexivity. Qed.

Lemma declare_partials_same_length (of_ wrt : string) (rs cs : list nat)
    (jac : gmap (string * string) (Om.Subjac F)) :
  length rs = length cs →
  Om.declare_partials of_ wrt rs cs jac =
    Ok (<[(of_, wrt) := {| Om.rows := rs; Om.cols := cs;
                           Om.val := Np.zeros (length rs) |}]> jac).
Proof. intros Hlen. unfold Om.declare_partials. rewrite decide_True by exact Hlen. reflexivity. Qed.

Lemma setup_closed (nn : nat) :
  setup nn = Ok {| num_nodes := nn;
                   inputs := inputs_of (Np.zeros nn) fgravity (Np.zeros nn);
                   outputs := outputs_of (Np.zeros nn) (Np.zeros nn) (Np.zeros nn);
                   partials := partials_of nn (Np.zeros nn) (Np.zeros nn) (Np.zeros nn)
                                 (Np.zeros nn) (Np.zeros nn) (Np.zeros nn) |}.
Proof.
  assert (Harange : length (Np.arange nn) = nn) by apply length_seq.
  assert (Hizeros : length (Np.izeros nn) = nn) by apply length_replicate.
  unfold setup.
  cbv zeta.
  repeat first [ rewrite add_var_fresh by reflexivity
               | rewrite declare_partials_same_length by congruence
               | rewrite bind_Ok; cbv beta ].
  rewrite Harange. reflexivity.
Qed.

Lemma compute_closed (v : list F) (g : F) (theta xdot ydot vdot : list F) :
  length v = length theta →
  length xdot = length theta → length ydot = length theta → length vdot = length theta →
  compute (inputs_of v g theta) (outputs_of xdot ydot vdot) =
    Ok (outputs_of (xdot_of v theta) (ydot_of v theta) (vdot_of g theta)).
Proof.
  intros Hv Hx Hy Hvd. unfold compute.
  change (Om.getitem "theta" (inputs_of v g theta)) with (Ok theta).
  change (Om.getitem "g" (inputs_of v g theta)) with (Ok [g]).
  change (Om.getitem "v" (inputs_of v g theta)) with (Ok v).
  rewrite !bind_Ok. cbv beta zeta.
  rewrite mul_broadcast_l, !mul_same_length by len.
  rewrite bind_Ok; cbv beta.
  rewrite (setitem_same_length "vdot" _ vdot) by (first [reflexivity | len]).
  rewrite !bind_Ok; cbv beta.
  rewrite (setitem_same_length "xdot" _ xdot) by (first [reflexivity | len]).
  rewrite !bind_Ok; cbv beta.
  rewrite (setitem_same_length "ydot" _ ydot) by (first [reflexivity | len]).
  reflexivity.
Qed.

Lemma compute_partials_closed (nn : nat) (v : list F) (g : F) (theta a b c d e f : list F) :
  length v = nn → length theta = nn →
  length a = nn → length b = nn → length c = nn →
  length d = nn → length e = nn → length f = nn →
  compute_partials (inputs_of v g theta) (partials_of nn a b c d e f) =
    Ok (partials_of nn (Np.cos theta) (dvdot_dtheta_of g theta)
          (Np.sin theta) (dxdot_dtheta_of v theta)
          (Np.neg (Np.cos theta)) (dydot_dtheta_of v theta)).
Proof.
  intros Hv Ht Ha Hb Hc Hd He Hf. unfold compute_partials.
  change (Om.getitem "theta" (inputs_of v g theta)) with (Ok theta).
  change (Om.getitem "g" (inputs_of v g theta)) with (Ok [g]).
  change (Om.getitem "v" (inputs_of v g theta)) with (Ok v).
  rewrite !bind_Ok. cbv beta zeta.
  change (Np.neg [g]) with [fneg g].
  rewrite mul_broadcast_l, !mul_same_length by len.
  rewrite (jac_setitem_same_length "vdot" "g" _ (column0 nn a)) by (first [reflexivity | len]).
  rewrite !bind_Ok; cbv beta.
  rewrite (jac_setitem_same_length "vdot" "theta" _ (diagonal nn b))
    by (first [reflexivity | len]).
  rewrite !bind_Ok; cbv beta.
  rewrite (jac_setitem_same_length "xdot" "v" _ (diagonal nn c)) by (first [reflexivity | len]).
  rewrite !bind_Ok; cbv beta.
  rewrite (jac_setitem_same_length "xdot" "theta" _ (diagonal nn d))
    by (first [reflexivity | len]).
  rewrite !bind_Ok; cbv beta.
  rewrite (jac_setitem_same_length "ydot" "v" _ (diagonal nn e)) by (first [reflexivity | len]).
  rewrite !bind_Ok; cbv beta.
  rewrite (jac_setitem_same_length "ydot" "theta" _ (diagonal nn f))
    by (first [reflexivity | len]).
  reflexivity.
Qed.
End ClosedForms.

(** ** The shape invariant *)

Section Invariant.
Context {F : Type} `{Scalar F}.

Lemma inputs_of_inj (v v' : list F) (g g' : F) (theta theta' : list F) :
  inputs_of v g theta = inputs_of v' g' theta' → v = v' ∧ g = g' ∧ theta = theta'.
Proof.
  intros Heq.
  assert (Hv : inputs_of v g theta !! "v" = inputs_of v' g' theta' !! "v") by (rewrite Heq; reflexivity).
  assert (Hg : inputs_of v g theta !! "g" = inputs_of v' g' theta' !! "g") by (rewrite Heq; reflexivity).
  assert (Ht : inputs_of v g theta !! "theta" = inputs_of v' g' theta' !! "theta")
    by (rewrite Heq; reflexivity).
  change (Some v = Some v') in Hv. change (Some [g] = Some [g']) in Hg.
  change (Some theta = Some theta') in Ht.
  split; [congruence | split; congruence].
Qed.

Lemma inputs_of_lookup_other (name : string) (v : list F) (g : F) (theta : list F) :
  name ≠ "v" → name ≠ "g" → name ≠ "theta" → inputs_of v g theta !! name = None.
Proof.
  intros Hv Hg Ht. unfold inputs_of.
  rewrite !lookup_insert_ne, lookup_singleton_ne by congruence. reflexivity.
Qed.

Lemma outputs_of_lookup_other (name : string) (xdot ydot vdot : list F) :
  name ≠ "xdot" → name ≠ "ydot" → name ≠ "vdot" → outputs_of xdot ydot vdot !! name = None.
Proof.
  intros Hx Hy Hv. unfold outputs_of.
  rewrite !lookup_insert_ne, lookup_singleton_ne by congruence. reflexivity.
Qed.

Lemma dom_outputs_of (xdot ydot vdot : list F) :
  dom (outputs_of xdot ydot vdot) = ({[ "xdot"; "ydot"; "vdot" ]} : gset string).
Proof. unfold outputs_of. rewrite !dom_insert_L, dom_singleton_L. set_solver. Qed.

Lemma dom_partials_of (nn : nat) (a b c d e f : list F) :
  dom (partials_of nn a b c d e f) =
    ({[ ("vdot", "g"); ("vdot", "theta"); ("xdot", "v"); ("xdot", "theta");
        ("ydot", "v"); ("ydot", "theta") ]} : gset (string * string)).
Proof. unfold partials_of. rewrite !dom_insert_L, dom_singleton_L. set_solver. Qed.

Lemma setup_shaped (nn : nat) (c : Component F) : setup nn = Ok c → shaped nn c.
Proof.
  rewrite setup_closed. intros [= <-]. split; simpl.
  - reflexivity.
  - exists (Np.zeros nn), fgravity, (Np.zeros nn). repeat split; len.
  - exists (Np.zeros nn), (Np.zeros nn), (Np.zeros nn). repeat split; len.
  - exists (Np.zeros nn), (Np.zeros nn), (Np.zeros nn),
      (Np.zeros nn), (Np.zeros nn), (Np.zeros nn).
    repeat split; len.
Qed.

Lemma set_val_shaped (nn : nat) (name : string) (value : list F) (c c' : Component F) :
  shaped nn c → set_val name value c = Ok c' → shaped nn c'.
Proof.
  intros [Hn (v & g & theta & Hin & Hv & Ht) Hout Hjac] Hset.
  unfold set_val in Hset. apply bind_Ok_inv in Hset as (ins & Hins & [= <-]).
  split; simpl; try assumption.
  rewrite Hin in Hins. unfold Om.setitem in Hins.
  destruct (decide (name = "v")) as [->|Hnv];
    [|destruct (decide (name = "g")) as [->|Hng];
      [|destruct (decide (name = "theta")) as [->|Hnt]]].
  - change (inputs_of v g theta !! "v") with (Some v) in Hins.
    apply bind_Ok_inv in Hins as (new & Hnew & [= <-]).
    apply assign_length in Hnew.
    exists new, g, theta. repeat split; congruence.
  - change (inputs_of v g theta !! "g") with (Some [g]) in Hins.
    apply bind_Ok_inv in Hins as (new & Hnew & [= <-]).
    apply assign_length in Hnew. apply length_one in Hnew as [g' ->].
    exists v, g', theta. repeat split; congruence.
  - change (inputs_of v g theta !! "theta") with (Some theta) in Hins.
    apply bind_Ok_inv in Hins as (new & Hnew & [= <-]).
    apply assign_length in Hnew.
    exists v, g, new. repeat split; congruence.
  - rewrite inputs_of_lookup_other in Hins by assumption. discriminate.
Qed.

Lemma run_compute_shaped (nn : nat) (c c' : Component F) :
  shaped nn c → run_compute c = Ok c' → shaped nn c'.
Proof.
  intros [Hn (v & g & theta & Hin & Hv & Ht)
            (x & y & vd & Hout & Hx & Hy & Hvd) Hjac] Hrun.
  unfold run_compute in Hrun. apply bind_Ok_inv in Hrun as (outs & Houts & [= <-]).
  rewrite Hin, Hout, compute_closed in Houts by congruence. injection Houts as <-.
  split; simpl.
  - assumption.
  - exists v, g, theta. auto.
  - exists (xdot_of v theta), (ydot_of v theta), (vdot_of g theta).
    unfold xdot_of, ydot_of, vdot_of. repeat split; len.
  - assumption.
Qed.

Lemma run_compute_partials_shaped (nn : nat) (c c' : Component F) :
  shaped nn c → run_compute_partials c = Ok c' → shaped nn c'.
Proof.
  intros [Hn (v & g & theta & Hin & Hv & Ht) Hout
            (a & b & c1 & d & e & f & Hjac & Ha & Hb & Hc & Hd & He & Hf)] Hrun.
  unfold run_compute_partials in Hrun.
  apply bind_Ok_inv in Hrun as (jac & Hjac' & [= <-]).
  rewrite Hin, Hjac, (compute_partials_closed nn) in Hjac' by assumption.
  injection Hjac' as <-.
  split; simpl.
  - assumption.
  - exists v, g, theta. auto.
  - assumption.
  - eexists _, _, _, _, _, _. split; [reflexivity|].
    unfold dvdot_dtheta_of, dxdot_dtheta_of, dydot_dtheta_of. repeat split; len.
Qed.

Lemma step_shaped (nn : nat) (c c' : Component F) : shaped nn c → step c c' → shaped nn c'.
Proof.
  intros Hc Hstep. destruct Hstep as [name value c c' Hs | c c' Hs | c c' Hs].
  - eapply set_val_shaped; eassumption.
  - eapply run_compute_shaped; eassumption.
  - eapply run_compute_partials_shaped; eassumption.
Qed.

Lemma reachable_shaped (nn : nat) (c : Component F) : reachable nn c → shaped nn c.
Proof.
  intros (c0 & Hsetup & Hsteps). apply setup_shaped in Hsetup.
  induction Hsteps as [c | c c' c'' Hstep _ IH]; [assumption|].
  apply IH. eapply step_shaped; eassumption.
Qed.

Lemma reachable_step (nn : nat) (c c' : Component F) :
  reachable nn c → step c c' → reachable nn c'.
Proof.
  intros (c0 & Hsetup & Hsteps) Hstep. exists c0. split; [assumption|].
  eapply rtc_r; eassumption.
Qed.

(** Every triple of input values of the declared shapes can be supplied. *)
Lemma reachable_with_inputs (nn : nat) (v : list F) (g : F) (theta : list F) :
  length v = nn → length theta = nn →
  reachable nn {| num_nodes := nn; inputs := inputs_of v g theta;
                  outputs := outputs_of (Np.zeros nn) (Np.zeros nn) (Np.zeros nn);
                  partials := partials_of nn (Np.zeros nn) (Np.zeros nn) (Np.zeros nn)
                                (Np.zeros nn) (Np.zeros nn) (Np.zeros nn) |}.
Proof.
  intros Hv Ht. eexists. split; [apply setup_closed|].
  eapply rtc_l.
  { apply (step_set_val "v" v). unfold set_val; simpl.
    rewrite (setitem_same_length "v" v (Np.zeros nn)) by (first [reflexivity | len]).
    reflexivity. }
  eapply rtc_l.
  { apply (step_set_val "g" [g]). unfold set_val; simpl.
    rewrite (setitem_same_length "g" [g] [fgravity]) by reflexivity.
    reflexivity. }
  eapply rtc_l.
  { apply (step_set_val "theta" theta). unfold set_val; simpl.
    rewrite (setitem_same_length "theta" theta (Np.zeros nn)) by (first [reflexivity | len]).
    reflexivity. }
  simpl. apply rtc_refl.
Qed.
End Invariant.

(** ** Properties of the evaluations, for any element type *)

Section Evaluation.
Context {F : Type} `{Scalar F}.

Lemma lookup_cos (theta : list F) (i : nat) (ti : F) :
  theta !! i = Some ti → Np.cos theta !! i = Some (fcos ti).
Proof. intros Ht. unfold Np.cos. rewrite list_lookup_fmap, Ht. reflexivity. Qed.

Lemma lookup_sin (theta : list F) (i : nat) (ti : F) :
  theta !! i = Some ti → Np.sin theta !! i = Some (fsin ti).
Proof. intros Ht. unfold Np.sin. rewrite list_lookup_fmap, Ht. reflexivity. Qed.

Lemma lookup_neg (a : list F) (i : nat) (x : F) :
  a !! i = Some x → Np.neg a !! i = Some (fneg x).
Proof. intros Ha. unfold Np.neg. rewrite list_lookup_fmap, Ha. reflexivity. Qed.

Lemma lookup_scale (k : F) (a : list F) (i : nat) (x : F) :
  a !! i = Some x → (fmul k <$> a) !! i = Some (fmul k x).
Proof. intros Ha. rewrite list_lookup_fmap, Ha. reflexivity. Qed.

(** What [compute] leaves in [outputs], in any reachable state. *)
Lemma compute_reachable (nn : nat) (c : Component F) (v : list F) (g : F) (theta : list F) :
  reachable nn c → inputs c = inputs_of v g theta →
  length v = nn ∧ length theta = nn ∧
  compute (inputs c) (outputs c) =
    Ok (outputs_of (xdot_of v theta) (ydot_of v theta) (vdot_of g theta)).
Proof.
  intros Hreach Hin. apply reachable_shaped in Hreach.
  destruct Hreach as [_ (v' & g' & theta' & Hin' & Hv & Ht)
                        (x & y & vd & Hout & Hx & Hy & Hvd) _].
  rewrite Hin in Hin'. apply inputs_of_inj in Hin' as (<- & <- & <-).
  split; [assumption|]. split; [assumption|].
  rewrite Hin, Hout. apply compute_closed; congruence.
Qed.

(** What [compute_partials] leaves in [jacobian], in any reachable state. *)
Lemma compute_partials_reachable (nn : nat) (c : Component F)
    (v : list F) (g : F) (theta : list F) :
  reachable nn c → inputs c = inputs_of v g theta →
  length v = nn ∧ length theta = nn ∧
  compute_partials (inputs c) (partials c) =
    Ok (partials_of nn (Np.cos theta) (dvdot_dtheta_of g theta)
          (Np.sin theta) (dxdot_dtheta_of v theta)
          (Np.neg (Np.cos theta)) (dydot_dtheta_of v theta)).
Proof.
  intros Hreach Hin. apply reachable_shaped in Hreach.
  destruct Hreach as [_ (v' & g' & theta' & Hin' & Hv & Ht) _
                        (a & b & c1 & d & e & f & Hjac & Ha & Hb & Hc & Hd & He & Hf)].
  rewrite Hin in Hin'. apply inputs_of_inj in Hin' as (<- & <- & <-).
  split; [assumption|]. split; [assumption|].
  rewrite Hin, Hjac. apply compute_partials_closed; assumption.
Qed.

(** C1. For every node count [nn] (in particular [nn >= 1]), in every state
    the component can be in, with [v], [theta] and the gravity [g] in the
    input vector: [compute] succeeds, leaves exactly the three outputs
    [xdot], [ydot], [vdot], each of length [nn], and at every node [i]
    [vdot[i] = g * cos(theta[i])], [xdot[i] = v[i] * sin(theta[i])] and
    [ydot[i] = -v[i] * cos(theta[i])]. *)
Theorem compute_rates (nn : nat) (c : Component F) (v : list F) (g : F) (theta : list F) :
  reachable nn c → inputs c = inputs_of v g theta →
  ∃ out xdot ydot vdot,
    compute (inputs c) (outputs c) = Ok out ∧
    dom out = ({[ "xdot"; "ydot"; "vdot" ]} : gset string) ∧
    out !! "xdot" = Some xdot ∧ out !! "ydot" = Some ydot ∧ out !! "vdot" = Some vdot ∧
    length xdot = nn ∧ length ydot = nn ∧ length vdot = nn ∧
    length v = nn ∧ length theta = nn ∧
    ∀ i, i < nn → ∃ vi ti,
      v !! i = Some vi ∧ theta !! i = Some ti ∧
      vdot !! i = Some (fmul g (fcos ti)) ∧
      xdot !! i = Some (fmul vi (fsin ti)) ∧
      ydot !! i = Some (fmul (fneg vi) (fcos ti)).
Proof.
  intros Hreach Hin.
  destruct (compute_reachable nn c v g theta Hreach Hin) as (Hv & Ht & Hcomp).
  exists (outputs_of (xdot_of v theta) (ydot_of v theta) (vdot_of g theta)),
    (xdot_of v theta), (ydot_of v theta), (vdot_of g theta).
  split; [exact Hcomp|]. split; [apply dom_outputs_of|].
  do 3 (split; [reflexivity|]).
  unfold xdot_of, ydot_of, vdot_of.
  do 3 (split; [len|]). do 2 (split; [assumption|]).
  intros i Hi.
  destruct (lookup_lt_is_Some_2 v i) as [vi Hvi]; [lia|].
  destruct (lookup_lt_is_Some_2 theta i) as [ti Hti]; [lia|].
  exists vi, ti. do 2 (split; [assumption|]).
  split; [|split].
  - apply lookup_scale, lookup_cos, Hti.
  - apply lookup_zip_with_mul; [exact Hvi | apply lookup_sin, Hti].
  - apply lookup_zip_with_mul; [apply lookup_neg, Hvi | apply lookup_cos, Hti].
Qed.

(** C2. For every node count [nn], in every state the component can be in,
    with [v], [theta] and [g] in the input vector: [compute_partials]
    succeeds and leaves exactly six sub-Jacobians, each with [nn] values,
    holding at every node [i]:
    [d vdot/d g = cos(theta[i])], [d vdot/d theta = -g * sin(theta[i])],
    [d xdot/d v = sin(theta[i])], [d xdot/d theta = v[i] * cos(theta[i])],
    [d ydot/d v = -cos(theta[i])], [d ydot/d theta = v[i] * sin(theta[i])]. *)
Theorem compute_partials_values (nn : nat) (c : Component F)
    (v : list F) (g : F) (theta : list F) :
  reachable nn c → inputs c = inputs_of v g theta →
  ∃ jac dvdot_dg dvdot_dtheta dxdot_dv dxdot_dtheta dydot_dv dydot_dtheta,
    compute_partials (inputs c) (partials c) = Ok jac ∧
    dom jac = ({[ ("vdot", "g"); ("vdot", "theta"); ("xdot", "v"); ("xdot", "theta");
                  ("ydot", "v"); ("ydot", "theta") ]} : gset (string * string)) ∧
    Om.val <$> jac !! ("vdot", "g") = Some dvdot_dg ∧
    Om.val <$> jac !! ("vdot", "theta") = Some dvdot_dtheta ∧
    Om.val <$> jac !! ("xdot", "v") = Some dxdot_dv ∧
    Om.val <$> jac !! ("xdot", "theta") = Some dxdot_dtheta ∧
    Om.val <$> jac !! ("ydot", "v") = Some dydot_dv ∧
    Om.val <$> jac !! ("ydot", "theta") = Some dydot_dtheta ∧
    length dvdot_dg = nn ∧ length dvdot_dtheta = nn ∧
    length dxdot_dv = nn ∧ length dxdot_dtheta = nn ∧
    length dydot_dv = nn ∧ length dydot_dtheta = nn ∧
    ∀ i, i < nn → ∃ vi ti,
      v !! i = Some vi ∧ theta !! i = Some ti ∧
      dvdot_dg !! i = Some (fcos ti) ∧
      dvdot_dtheta !! i = Some (fmul (fneg g) (fsin ti)) ∧
      dxdot_dv !! i = Some (fsin ti) ∧
      dxdot_dtheta !! i = Some (fmul vi (fcos ti)) ∧
      dydot_dv !! i = Some (fneg (fcos ti)) ∧
      dydot_dtheta !! i = Some (fmul vi (fsin ti)).
Proof.
  intros Hreach Hin.
  destruct (compute_partials_reachable nn c v g theta Hreach Hin) as (Hv & Ht & Hcomp).
  eexists _, _, _, _, _, _, _.
  split; [exact Hcomp|]. split; [apply dom_partials_of|].
  do 6 (split; [reflexivity|]).
  unfold dvdot_dtheta_of, dxdot_dtheta_of, dydot_dtheta_of.
  do 6 (split; [len|]).
  intros i Hi.
  destruct (lookup_lt_is_Some_2 v i) as [vi Hvi]; [lia|].
  destruct (lookup_lt_is_Some_2 theta i) as [ti Hti]; [lia|].
  exists vi, ti. do 2 (split; [assumption|]).
  repeat split.
  - apply lookup_cos, Hti.
  - apply lookup_scale, lookup_sin, Hti.
  - apply lookup_sin, Hti.
  - apply lookup_zip_with_mul; [exact Hvi | apply lookup_cos, Hti].
  - apply lookup_neg, lookup_cos, Hti.
  - apply lookup_zip_with_mul; [exact Hvi | apply lookup_sin, Hti].
Qed.
End Evaluation.

Section Purity.
Context {F : Type} `{Scalar F}.

(** C5. The evaluations are deterministic and stateless: whatever happened
    to two component states before (set up, any number of input updates
    and evaluations, in particular any number of evaluations between the
    first state and the second), if their inputs are identical then
    [compute] succeeds on both with identical outputs and
    [compute_partials] succeeds on both with identical Jacobians. *)
Theorem evaluation_deterministic (n1 n2 : nat) (c1 c2 : Component F) :
  reachable n1 c1 → reachable n2 c2 → inputs c1 = inputs c2 →
  (∃ out, compute (inputs c1) (outputs c1) = Ok out ∧
          compute (inputs c2) (outputs c2) = Ok out) ∧
  (∃ jac, compute_partials (inputs c1) (partials c1) = Ok jac ∧
          compute_partials (inputs c2) (partials c2) = Ok jac).
Proof.
  intros Hr1 Hr2 Hin.
  destruct (reachable_shaped _ _ Hr1) as [_ (v & g & theta & Hin1 & Hv1 & Ht1) _ _].
  assert (Hin2 : inputs c2 = inputs_of v g theta) by congruence.
  destruct (compute_reachable _ _ _ _ _ Hr1 Hin1) as (_ & _ & Hc1).
  destruct (compute_reachable _ _ _ _ _ Hr2 Hin2) as (Hv2 & _ & Hc2).
  destruct (compute_partials_reachable _ _ _ _ _ Hr1 Hin1) as (_ & _ & Hp1).
  destruct (compute_partials_reachable _ _ _ _ _ Hr2 Hin2) as (_ & _ & Hp2).
  assert (n1 = n2) as <- by congruence.
  split; eexists; split; eassumption.
Qed.

(** C8. The evaluations are total: for every node count [nn] and all
    arrays [v], [theta] of length [nn] and every gravity [g], the framework
    can supply these inputs, and in every state that holds them both
    [compute] and [compute_partials] return normally; no exception is
    raised. *)
Theorem evaluation_total (nn : nat) (v : list F) (g : F) (theta : list F) :
  length v = nn → length theta = nn →
  (∃ c, reachable nn c ∧ inputs c = inputs_of v g theta) ∧
  (∀ c, reachable nn c → inputs c = inputs_of v g theta →
     succeeds (compute (inputs c) (outputs c)) ∧
     succeeds (compute_partials (inputs c) (partials c))).
Proof.
  intros Hv Ht. split.
  - eexists. split; [apply (reachable_with_inputs nn v g theta Hv Ht) | reflexivity].
  - intros c Hreach Hin.
    destruct (compute_reachable _ _ _ _ _ Hreach Hin) as (_ & _ & Hc).
    destruct (compute_partials_reachable _ _ _ _ _ Hreach Hin) as (_ & _ & Hp).
    split; eexists; eassumption.
Qed.

End Purity.


Section DenseEntries.
Context {F : Type} `{Scalar F}.

Lemma zip_diag_elem (l : list nat) (p : nat * nat) : p ∈ zip l l → p.1 = p.2.
Proof.
  intros Hp. apply list_elem_of_lookup in Hp as [k Hk].
  apply lookup_zip_with_Some in Hk as (a & b & -> & Ha & Hb). simpl. congruence.
Qed.

Lemma entry_diagonal_off (nn : nat) (vals : list F) (i j : nat) :
  i ≠ j → Om.entry (diagonal nn vals) i j = fzero.
Proof.
  intros Hij. unfold Om.entry.
  destruct (list_find _ _) as [[k p]|] eqn:Hfind; [|reflexivity].
  apply list_find_Some in Hfind as (Hk & -> & _).
  apply list_elem_of_lookup_2, zip_diag_elem in Hk. simpl in Hk. contradiction.
Qed.

Lemma entry_column0_off (nn : nat) (vals : list F) (i j : nat) :
  j ≠ 0 → Om.entry (column0 nn vals) i j = fzero.
Proof.
  intros Hj. unfold Om.entry.
  destruct (list_find _ _) as [[k p]|] eqn:Hfind; [|reflexivity].
  apply list_find_Some in Hfind as (Hk & -> & _). simpl in Hk.
  apply lookup_zip_with_Some in Hk as (a & b & [= -> ->] & _ & Hb).
  unfold Np.izeros in Hb. apply lookup_replicate in Hb as [-> _]. contradiction.
Qed.

(** Row [i] of the [vdot]-by-[g] block is paired with column 0, at
    position [i] of the declared nonzeros. *)
Lemma column0_position (nn : nat) (vals : list F) (i : nat) :
  i < nn →
  zip (Om.rows (column0 nn vals)) (Om.cols (column0 nn vals)) !! i = Some (i, 0).
Proof.
  intros Hi. simpl. apply lookup_zip_with_Some. exists i, 0.
  split; [reflexivity|]. split.
  - unfold Np.arange. rewrite lookup_seq. split; [reflexivity | assumption].
  - unfold Np.izeros. apply lookup_replicate. split; [reflexivity | assumption].
Qed.

Lemma diagonal_position (nn : nat) (vals : list F) (i : nat) :
  i < nn →
  zip (Om.rows (diagonal nn vals)) (Om.cols (diagonal nn vals)) !! i = Some (i, i).
Proof.
  intros Hi. simpl. apply lookup_zip_with_Some. exists i, i.
  split; [reflexivity|]. unfold Np.arange. rewrite lookup_seq. auto.
Qed.

Lemma partials_of_lookup (nn : nat) (a b c d e f : list F)
    (key : string * string) (sj : Om.Subjac F) :
  partials_of nn a b c d e f !! key = Some sj →
  (key = ("vdot", "g") ∧ sj = column0 nn a) ∨
  (key ≠ ("vdot", "g") ∧ ∃ vals, sj = diagonal nn vals).
Proof.
  unfold partials_of. intros Hlook.
  rewrite lookup_insert in Hlook. case_decide as H1.
  { left. split; congruence. }
  right. split; [congruence|].
  repeat (rewrite lookup_insert in Hlook; case_decide;
          [injection Hlook as <-; eexists; reflexivity|]).
  rewrite lookup_singleton in Hlook. case_decide; [|discriminate].
  injection Hlook as <-. eexists; reflexivity.
Qed.

Lemma dense_off_diagonal (nn : nat) (a b c d e f : list F) (of_ wrt : string) (i j : nat) :
  (of_, wrt) ≠ ("vdot", "g") → i ≠ j →
  Om.dense (partials_of nn a b c d e f) of_ wrt i j = fzero.
Proof.
  intros Hkey Hij. unfold Om.dense.
  destruct (partials_of nn a b c d e f !! (of_, wrt)) as [sj|] eqn:Hlook; [|reflexivity].
  apply partials_of_lookup in Hlook as [[Heq _] | [_ [vals ->]]]; [contradiction|].
  apply entry_diagonal_off, Hij.
Qed.
End DenseEntries.

Section ReadingFacts.
Context {F : Type} `{Scalar F}.

(** The three rates at node [i], for any input values of the declared
    shapes, written into the outputs of any reachable state. *)
Lemma rates_at (nn : nat) (c : Component F) (v : list F) (g : F) (theta : list F)
    (i : nat) (vi ti : F) :
  reachable nn c → length v = nn → length theta = nn →
  v !! i = Some vi → theta !! i = Some ti →
  rate "xdot" (inputs_of v g theta) (outputs c) i = fmul vi (fsin ti) ∧
  rate "ydot" (inputs_of v g theta) (outputs c) i = fmul (fneg vi) (fcos ti) ∧
  rate "vdot" (inputs_of v g theta) (outputs c) i = fmul g (fcos ti).
Proof.
  intros Hreach Hv Ht Hvi Hti. apply reachable_shaped in Hreach.
  destruct Hreach as [_ _ (x & y & vd & Hout & Hx & Hy & Hvd) _].
  unfold rate. rewrite Hout, compute_closed by congruence.
  change (outputs_of (xdot_of v theta) (ydot_of v theta) (vdot_of g theta) !! "xdot")
    with (Some (xdot_of v theta)).
  change (outputs_of (xdot_of v theta) (ydot_of v theta) (vdot_of g theta) !! "ydot")
    with (Some (ydot_of v theta)).
  change (outputs_of (xdot_of v theta) (ydot_of v theta) (vdot_of g theta) !! "vdot")
    with (Some (vdot_of g theta)).
  simpl. unfold xdot_of, ydot_of, vdot_of.
  rewrite (lookup_zip_with_mul _ _ i vi (fsin ti)) by (first [assumption | apply lookup_sin, Hti]).
  rewrite (lookup_zip_with_mul _ _ i (fneg vi) (fcos ti))
    by (first [apply lookup_neg, Hvi | apply lookup_cos, Hti]).
  rewrite (lookup_scale g _ i (fcos ti)) by (apply lookup_cos, Hti).
  auto.
Qed.

(** The six stored values at position [i]. *)
Lemma stored_at (nn : nat) (c : Component F) (v : list F) (g : F) (theta : list F)
    (i : nat) (vi ti : F) :
  reachable nn c → inputs c = inputs_of v g theta →
  v !! i = Some vi → theta !! i = Some ti →
  stored "vdot" "g" (inputs c) (partials c) i = fcos ti ∧
  stored "vdot" "theta" (inputs c) (partials c) i = fmul (fneg g) (fsin ti) ∧
  stored "xdot" "v" (inputs c) (partials c) i = fsin ti ∧
  stored "xdot" "theta" (inputs c) (partials c) i = fmul vi (fcos ti) ∧
  stored "ydot" "v" (inputs c) (partials c) i = fneg (fcos ti) ∧
  stored "ydot" "theta" (inputs c) (partials c) i = fmul vi (fsin ti).
Proof.
  intros Hreach Hin Hvi Hti.
  destruct (compute_partials_reachable _ _ _ _ _ Hreach Hin) as (_ & _ & Hcomp).
  unfold stored. rewrite Hcomp.
  set (jac := partials_of _ _ _ _ _ _ _).
  change (jac !! ("vdot", "g")) with (Some (column0 nn (Np.cos theta))).
  change (jac !! ("vdot", "theta")) with (Some (diagonal nn (dvdot_dtheta_of g theta))).
  change (jac !! ("xdot", "v")) with (Some (diagonal nn (Np.sin theta))).
  change (jac !! ("xdot", "theta")) with (Some (diagonal nn (dxdot_dtheta_of v theta))).
  change (jac !! ("ydot", "v")) with (Some (diagonal nn (Np.neg (Np.cos theta)))).
  change (jac !! ("ydot", "theta")) with (Some (diagonal nn (dydot_dtheta_of v theta))).
  simpl. unfold dvdot_dtheta_of, dxdot_dtheta_of, dydot_dtheta_of.
  rewrite (lookup_cos _ _ _ Hti), (lookup_sin _ _ _ Hti).
  rewrite (lookup_scale _ _ i (fsin ti)) by (apply lookup_sin, Hti).
  rewrite (lookup_neg _ i (fcos ti)) by (apply lookup_cos, Hti).
  rewrite (lookup_zip_with_mul _ _ i vi (fcos ti)) by (first [assumption | apply lookup_cos, Hti]).
  rewrite (lookup_zip_with_mul _ _ i vi (fsin ti)) by (first [assumption | apply lookup_sin, Hti]).
  auto 10.
Qed.
End ReadingFacts.

(** ** Exact arithmetic: the element type is the real numbers *)

Section Exact.
Local Open Scope R_scope.

Lemma derivable_pt_lim_ext (f1 f2 : R → R) (a l : R) :
  (∀ x, f1 x = f2 x) → derivable_pt_lim f1 a l → derivable_pt_lim f2 a l.
Proof.
  intros Heq Hd eps Heps. destruct (Hd eps Heps) as [delta Hdelta].
  exists delta. intros h Hh Hlt. rewrite <- !Heq. apply Hdelta; assumption.
Qed.

Lemma deriv_linear (k a : R) : derivable_pt_lim (λ x, x * k) a k.
Proof.
  intros eps Heps. exists (mkposreal 1 Rlt_0_1). intros h Hh _.
  replace (((a + h) * k - a * k) / h - k) with 0 by (field; assumption).
  rewrite Rabs_R0. assumption.
Qed.

Lemma deriv_neg_linear (k a : R) : derivable_pt_lim (λ x, - x * k) a (- k).
Proof.
  intros eps Heps. exists (mkposreal 1 Rlt_0_1). intros h Hh _.
  replace ((- (a + h) * k - - a * k) / h - - k) with 0 by (field; assumption).
  rewrite Rabs_R0. assumption.
Qed.

Lemma deriv_scale_cos (k a : R) : derivable_pt_lim (λ x, k * cos x) a (- k * sin a).
Proof.
  replace (- k * sin a) with (k * - sin a) by ring.
  apply (derivable_pt_lim_scal cos k a (- sin a)), derivable_pt_lim_cos.
Qed.

Lemma deriv_scale_sin (k a : R) : derivable_pt_lim (λ x, k * sin x) a (k * cos a).
Proof. apply (derivable_pt_lim_scal sin k a (cos a)), derivable_pt_lim_sin. Qed.

Lemma deriv_constant (k a : R) : derivable_pt_lim (λ _, k) a 0.
Proof. apply (derivable_pt_lim_const k a). Qed.

(** C3. The Jacobian is exact.  In every state the component can be in,
    with [v], [theta], [g] in the input vector, each of the six values that
    [compute_partials] stores at node [i] is the derivative of the
    corresponding output of [compute] at node [i], taken as a function of
    the corresponding input at node [i] (of the scalar [g] for
    [d vdot/d g]) with all other inputs held fixed. *)
Theorem jacobian_exact (nn : nat) (c : Component R) (v : list R) (g : R) (theta : list R)
    (i : nat) (vi ti : R) :
  reachable nn c → inputs c = inputs_of v g theta →
  v !! i = Some vi → theta !! i = Some ti →
  derivable_pt_lim (λ x, rate "vdot" (inputs_of v x theta) (outputs c) i) g
    (stored "vdot" "g" (inputs c) (partials c) i) ∧
  derivable_pt_lim (λ x, rate "vdot" (inputs_of v g (<[i := x]> theta)) (outputs c) i) ti
    (stored "vdot" "theta" (inputs c) (partials c) i) ∧
  derivable_pt_lim (λ x, rate "xdot" (inputs_of (<[i := x]> v) g theta) (outputs c) i) vi
    (stored "xdot" "v" (inputs c) (partials c) i) ∧
  derivable_pt_lim (λ x, rate "xdot" (inputs_of v g (<[i := x]> theta)) (outputs c) i) ti
    (stored "xdot" "theta" (inputs c) (partials c) i) ∧
  derivable_pt_lim (λ x, rate "ydot" (inputs_of (<[i := x]> v) g theta) (outputs c) i) vi
    (stored "ydot" "v" (inputs c) (partials c) i) ∧
  derivable_pt_lim (λ x, rate "ydot" (inputs_of v g (<[i := x]> theta)) (outputs c) i) ti
    (stored "ydot" "theta" (inputs c) (partials c) i).
Proof.
  intros Hreach Hin Hvi Hti.
  destruct (stored_at nn c v g theta i vi ti Hreach Hin Hvi Hti)
    as (-> & -> & -> & -> & -> & ->).
  destruct (compute_reachable nn c v g theta Hreach Hin) as (Hv & Ht & _).
  assert (Hi : (i < nn)%nat) by (rewrite <- Hv; eapply lookup_lt_Some; eassumption).
  assert (Hv' : ∀ x, <[i := x]> v !! i = Some x)
    by (intros x; apply list_lookup_insert_eq; lia).
  assert (Ht' : ∀ x, <[i := x]> theta !! i = Some x)
    by (intros x; apply list_lookup_insert_eq; lia).
  assert (Hlv : ∀ x, length (<[i := x]> v) = nn) by (intros x; rewrite length_insert; exact Hv).
  assert (Hlt : ∀ x, length (<[i := x]> theta) = nn)
    by (intros x; rewrite length_insert; exact Ht).
  simpl. repeat split.
  - apply (derivable_pt_lim_ext (λ x, x * cos ti)); [|apply deriv_linear].
    intros x. symmetry.
    apply (rates_at nn c v x theta i vi ti Hreach Hv Ht Hvi Hti).
  - apply (derivable_pt_lim_ext (λ x, g * cos x)); [|apply deriv_scale_cos].
    intros x. symmetry.
    apply (rates_at nn c v g (<[i := x]> theta) i vi x Hreach Hv (Hlt x) Hvi (Ht' x)).
  - apply (derivable_pt_lim_ext (λ x, x * sin ti)); [|apply deriv_linear].
    intros x. symmetry.
    apply (rates_at nn c (<[i := x]> v) g theta i x ti Hreach (Hlv x) Ht (Hv' x) Hti).
  - apply (derivable_pt_lim_ext (λ x, vi * sin x)); [|apply deriv_scale_sin].
    intros x. symmetry.
    apply (rates_at nn c v g (<[i := x]> theta) i vi x Hreach Hv (Hlt x) Hvi (Ht' x)).
  - apply (derivable_pt_lim_ext (λ x, - x * cos ti)); [|apply deriv_neg_linear].
    intros x. symmetry.
    apply (rates_at nn c (<[i := x]> v) g theta i x ti Hreach (Hlv x) Ht (Hv' x) Hti).
  - apply (derivable_pt_lim_ext (λ x, - vi * cos x)).
    + intros x. symmetry.
      apply (rates_at nn c v g (<[i := x]> theta) i vi x Hreach Hv (Hlt x) Hvi (Ht' x)).
    + replace (vi * sin ti) with (- - vi * sin ti) by ring. apply deriv_scale_cos.
Qed.

(** C10. Speed consistency: in every state the component can be in, with
    [v], [theta], [g] in the input vector, the outputs of [compute] at
    every node [i] satisfy [xdot[i]^2 + ydot[i]^2 = v[i]^2]. *)
Theorem speed_consistency (nn : nat) (c : Component R) (v : list R) (g : R) (theta : list R)
    (i : nat) (vi : R) :
  reachable nn c → inputs c = inputs_of v g theta → v !! i = Some vi →
  rate "xdot" (inputs c) (outputs c) i ^ 2 + rate "ydot" (inputs c) (outputs c) i ^ 2
    = vi ^ 2.
Proof.
  intros Hreach Hin Hvi.
  destruct (compute_reachable nn c v g theta Hreach Hin) as (Hv & Ht & _).
  destruct (lookup_lt_is_Some_2 theta i) as [ti Hti].
  { rewrite Ht, <- Hv. eapply lookup_lt_Some; eassumption. }
  rewrite Hin.
  destruct (rates_at nn c v g theta i vi ti Hreach Hv Ht Hvi Hti) as (-> & -> & _).
  simpl. pose proof (sin2_cos2 ti) as Hsc. unfold Rsqr in Hsc.
  replace (vi * sin ti * (vi * sin ti * 1) + - vi * cos ti * (- vi * cos ti * 1))
    with (vi * vi * (sin ti * sin ti + cos ti * cos ti)) by ring.
  rewrite Hsc. ring.
Qed.
End Exact.

(** ** The sparsity pattern *)

Section Pattern.
Context {F : Type} `{Scalar F}.


Lemma pattern_reachable (nn : nat) (c : Component F) :
  reachable nn c → pattern (partials c) = declared_pattern nn.
Proof.
  intros Hreach. apply reachable_shaped in Hreach.
  destruct Hreach as [_ _ _ (a & b & c1 & d & e & f & -> & _)].
  reflexivity.
Qed.

Lemma rtc_step_reachable (nn : nat) (c c' : Component F) :
  reachable nn c → rtc step c c' → reachable nn c'.
Proof.
  intros (c0 & Hsetup & Hsteps) Hmore. exists c0. split; [assumption|].
  etrans; eassumption.
Qed.

Lemma xdot_insert_v (v theta : list F) (i j : nat) (x : F) :
  i ≠ j → xdot_of (<[j := x]> v) theta !! i = xdot_of v theta !! i.
Proof.
  intros Hij. unfold xdot_of.
  rewrite !lookup_zip_with, list_lookup_insert_ne by congruence. reflexivity.
Qed.

Lemma xdot_insert_theta (v theta : list F) (i j : nat) (x : F) :
  i ≠ j → xdot_of v (<[j := x]> theta) !! i = xdot_of v theta !! i.
Proof.
  intros Hij. unfold xdot_of, Np.sin.
  rewrite !lookup_zip_with, !list_lookup_fmap, list_lookup_insert_ne by congruence.
  reflexivity.
Qed.

Lemma ydot_insert_v (v theta : list F) (i j : nat) (x : F) :
  i ≠ j → ydot_of (<[j := x]> v) theta !! i = ydot_of v theta !! i.
Proof.
  intros Hij. unfold ydot_of, Np.neg.
  rewrite !lookup_zip_with, !list_lookup_fmap, list_lookup_insert_ne by congruence.
  reflexivity.
Qed.

Lemma ydot_insert_theta (v theta : list F) (i j : nat) (x : F) :
  i ≠ j → ydot_of v (<[j := x]> theta) !! i = ydot_of v theta !! i.
Proof.
  intros Hij. unfold ydot_of, Np.cos.
  rewrite !lookup_zip_with, !list_lookup_fmap, list_lookup_insert_ne by congruence.
  reflexivity.
Qed.

Lemma vdot_insert_theta (g : F) (theta : list F) (i j : nat) (x : F) :
  i ≠ j → vdot_of g (<[j := x]> theta) !! i = vdot_of g theta !! i.
Proof.
  intros Hij. unfold vdot_of, Np.cos.
  rewrite !list_lookup_fmap, list_lookup_insert_ne by congruence. reflexivity.
Qed.

Lemma outputs_of_at (x y vd x' y' vd' : list F) (i : nat) (of_ : string) :
  x !! i = x' !! i → y !! i = y' !! i → vd !! i = vd' !! i →
  (outputs_of x y vd !! of_ ≫= λ a, a !! i) = (outputs_of x' y' vd' !! of_ ≫= λ a, a !! i).
Proof.
  intros Hx Hy Hvd.
  destruct (decide (of_ = "xdot")) as [->|Hnx]; [exact Hx|].
  destruct (decide (of_ = "ydot")) as [->|Hny]; [exact Hy|].
  destruct (decide (of_ = "vdot")) as [->|Hnv]; [exact Hvd|].
  rewrite !outputs_of_lookup_other by assumption. reflexivity.
Qed.

(** A rate at node [i] does not depend on [v] or [theta] at another
    node [j]. *)
Lemma rate_other_node (nn : nat) (c : Component F) (v : list F) (g : F) (theta : list F)
    (of_ : string) (i j : nat) (x : F) :
  reachable nn c → length v = nn → length theta = nn → i ≠ j →
  rate of_ (inputs_of (<[j := x]> v) g theta) (outputs c) i
    = rate of_ (inputs_of v g theta) (outputs c) i ∧
  rate of_ (inputs_of v g (<[j := x]> theta)) (outputs c) i
    = rate of_ (inputs_of v g theta) (outputs c) i.
Proof.
  intros Hreach Hv Ht Hij. apply reachable_shaped in Hreach.
  destruct Hreach as [_ _ (x0 & y0 & vd0 & Hout & Hx & Hy & Hvd) _].
  unfold rate. rewrite Hout.
  rewrite !compute_closed by (rewrite ?length_insert; congruence).
  split; f_equal; apply outputs_of_at;
    auto using xdot_insert_v, xdot_insert_theta, ydot_insert_v, ydot_insert_theta,
               vdot_insert_theta.
Qed.
End Pattern.

Section Sparsity.
Local Open Scope R_scope.

(** C4. Sparsity.  In every state the component can be in for [nn] nodes:
    the declared pattern is the one fixed by [nn] (row [k] with column
    [k], except for [vdot] by [g], where every row goes with column 0);
    it is the same after any further input updates and evaluations; the
    Jacobian entry of any output at node [i] with respect to [v] or
    [theta] at another node [j] is zero, and so is the derivative of that
    output of [compute]; the block of [vdot] by [g] has entries in column
    0 only. *)
Theorem jacobian_sparsity (nn : nat) (c : Component R) (v : list R) (g : R) (theta : list R) :
  reachable nn c → inputs c = inputs_of v g theta →
  pattern (partials c) = declared_pattern nn ∧
  (∀ c', rtc step c c' → pattern (partials c') = pattern (partials c)) ∧
  (∀ of_ wrt i j, (of_, wrt) ≠ ("vdot", "g") → i ≠ j →
     Om.dense (partials c) of_ wrt i j = 0) ∧
  (∀ i j, j ≠ 0%nat → Om.dense (partials c) "vdot" "g" i j = 0) ∧
  (∀ of_ i j x0, i ≠ j →
     derivable_pt_lim
       (λ x, rate of_ (inputs_of (<[j := x]> v) g theta) (outputs c) i) x0 0 ∧
     derivable_pt_lim
       (λ x, rate of_ (inputs_of v g (<[j := x]> theta)) (outputs c) i) x0 0).
Proof.
  intros Hreach Hin.
  destruct (compute_reachable nn c v g theta Hreach Hin) as (Hv & Ht & _).
  pose proof (reachable_shaped _ _ Hreach) as
    [_ _ _ (a & b & c1 & d & e & f & Hjac & _)].
  split; [apply pattern_reachable, Hreach|].
  split.
  { intros c' Hsteps.
    rewrite (pattern_reachable nn c Hreach).
    apply pattern_reachable. eapply rtc_step_reachable; eassumption. }
  split.
  { intros of_ wrt i j Hkey Hij. rewrite Hjac.
    exact (dense_off_diagonal nn a b c1 d e f of_ wrt i j Hkey Hij). }
  split.
  { intros i j Hj. rewrite Hjac. exact (entry_column0_off nn a i j Hj). }
  intros of_ i j x0 Hij. split.
  - apply (derivable_pt_lim_ext (λ _, rate of_ (inputs_of v g theta) (outputs c) i));
      [|apply deriv_constant].
    intros x. symmetry.
    apply (rate_other_node nn c v g theta of_ i j x Hreach Hv Ht Hij).
  - apply (derivable_pt_lim_ext (λ _, rate of_ (inputs_of v g theta) (outputs c) i));
      [|apply deriv_constant].
    intros x. symmetry.
    apply (rate_other_node nn c v g theta of_ i j x Hreach Hv Ht Hij).
Qed.
End Sparsity.

(** ** The command lines *)

Section CommandLine.
Lemma lookup_flag_registered (arguments : list Argparse.Argument) (f : string)
    (act : Argparse.action) :
  Argparse.lookup_flag arguments f = Some act →
  (f, act) ∈ Argparse.option_strings arguments.
Proof.
  unfold Argparse.lookup_flag. intros Hflag.
  destruct (list_find _ _) as [[i [s act']]|] eqn:Hfind; [|discriminate].
  simpl in Hflag. assert (act' = act) as -> by congruence.
  apply list_find_Some in Hfind as (Hi & Hs & _). simpl in Hs. subst s.
  eapply list_elem_of_lookup_2, Hi.
Qed.

Lemma abbreviations_registered (arguments : list Argparse.Argument) (f s : string)
    (act : Argparse.action) (explicit : option string) :
  (s, act, explicit) ∈ Argparse.abbreviations arguments f →
  (s, act) ∈ Argparse.option_strings arguments.
Proof.
  unfold Argparse.abbreviations. destruct (String.prefix "--" f).
  - destruct (Argparse.split_equals f) as [name e].
    intros Hin. apply list_elem_of_fmap in Hin as ([s' act'] & [= -> -> _] & Hin).
    apply list_elem_of_In, List.filter_In in Hin as [Hin _].
    apply list_elem_of_In, Hin.
  - intros Hin. apply list_elem_of_bind in Hin as ([s' act'] & Hin & Hreg).
    simpl in Hin. destruct (decide _).
    + apply list_elem_of_singleton in Hin as [= -> -> _]. exact Hreg.
    + destruct (String.prefix f s'); [|inversion Hin].
      apply list_elem_of_singleton in Hin as [= -> -> _]. exact Hreg.
Qed.

Lemma with_explicit_store (arguments : list Argparse.Argument) (s explicit : string)
    (act : Argparse.action) (a : Argparse.Argument) (e : option string) :
  Argparse.with_explicit arguments s act explicit = Argparse.Run (Argparse.Store a) e →
  act = Argparse.Store a.
Proof.
  unfold Argparse.with_explicit. destruct act as [|a'].
  - destruct (_ && _); discriminate.
  - congruence.
Qed.

(** An option that stores a value was declared by the script. *)
Lemma classify_store (arguments : list Argparse.Argument) (f : string)
    (a : Argparse.Argument) (e : option string) :
  Argparse.classify arguments f = Argparse.Run (Argparse.Store a) e → a ∈ arguments.
Proof.
  assert (Hreg : ∀ s, (s, Argparse.Store a) ∈ Argparse.option_strings arguments → a ∈ arguments).
  { intros s Hs. unfold Argparse.option_strings in Hs. apply elem_of_app in Hs as [Hs | Hs].
    - rewrite !elem_of_cons, elem_of_nil in Hs. destruct Hs as [Hs | [Hs | []]]; discriminate.
    - apply list_elem_of_fmap in Hs as (a' & [= _ ->] & Ha). exact Ha. }
  assert (Habbr : match Argparse.abbreviations arguments f with
                  | [] => Argparse.Unrecognized
                  | [(s, act, None)] => Argparse.Run act None
                  | [(s, act, Some e')] => Argparse.with_explicit arguments s act e'
                  | _ => Argparse.Ambiguous
                  end = Argparse.Run (Argparse.Store a) e → a ∈ arguments).
  { destruct (Argparse.abbreviations arguments f) as [|[[s act] [e'|]] [|]] eqn:Habbr;
      try discriminate; intros Hrun.
    - apply with_explicit_store in Hrun as ->.
      apply (Hreg s), (abbreviations_registered arguments f s _ (Some e')).
      rewrite Habbr. left.
    - assert (act = Argparse.Store a) as -> by congruence.
      apply (Hreg s), (abbreviations_registered arguments f s _ None).
      rewrite Habbr. left. }
  unfold Argparse.classify.
  destruct (decide (f = "--")); [discriminate|].
  destruct (negb (String.prefix "-" f)); [discriminate|].
  destruct (Argparse.lookup_flag arguments f) as [act|] eqn:Hflag.
  { intros Hrun. assert (act = Argparse.Store a) as -> by congruence.
    apply (Hreg f), lookup_flag_registered, Hflag. }
  destruct (decide (f = "-")); [discriminate|].
  destruct (Argparse.split_equals f) as [name [e'|]]; [|exact Habbr].
  destruct (Argparse.lookup_flag arguments name) as [act|] eqn:Hname; [|exact Habbr].
  intros Hrun. apply with_explicit_store in Hrun as ->.
  apply (Hreg name), lookup_flag_registered, Hname.
Qed.

Lemma parse_keeps_keys (arguments : list Argparse.Argument) (argv : list (string * string))
    (ns ns' : gmap string string) (extras : bool) (name : string) :
  Argparse.parse arguments argv ns extras = Ok ns' →
  is_Some (ns !! name) → is_Some (ns' !! name).
Proof.
  revert ns extras.
  induction argv as [|[f value] rest IH]; intros ns extras Hparse Hsome; simpl in Hparse.
  - destruct extras; [discriminate|]. injection Hparse as <-. assumption.
  - destruct (Argparse.classify arguments f) as [[|a] [e|]| | | |]; try discriminate.
    + apply bind_Ok_inv in Hparse as (_ & _ & Hparse).
      apply (IH _ _ Hparse). rewrite lookup_insert. case_decide; [eauto | assumption].
    + apply bind_Ok_inv in Hparse as (_ & _ & Hparse).
      apply (IH _ _ Hparse). rewrite lookup_insert. case_decide; [eauto | assumption].
    + apply (IH _ _ Hparse), Hsome.
Qed.

Lemma parse_args_keeps_keys (arguments : list Argparse.Argument)
    (argv : list (string * string)) (args : gmap string string) (name : string) :
  Argparse.parse_args arguments argv = Ok args →
  is_Some (Argparse.defaults arguments !! name) → is_Some (args !! name).
Proof.
  unfold Argparse.parse_args. destruct (Argparse.ambiguous arguments argv); [discriminate|].
  apply parse_keeps_keys.
Qed.

Lemma paraboloid_parse_step (value : string) (rest : list (string * string))
    (ns : gmap string string) (extras : bool) :
  Argparse.parse Paraboloid.parser (("--algorithm", value) :: rest) ns extras =
    if decide (value ∈ Paraboloid.algorithms)
    then Argparse.parse Paraboloid.parser rest (<["algorithm" := value]> ns) extras
    else Raise (SystemExit 2).
Proof.
  change (Argparse.parse Paraboloid.parser (("--algorithm", value) :: rest) ns extras)
    with (Argparse.check_value
            {| Argparse.flag := "--algorithm"; Argparse.dest := "algorithm";
               Argparse.default := "ip";
               Argparse.choices := Some Paraboloid.algorithms |} value
          ≫= λ _, Argparse.parse Paraboloid.parser rest (<["algorithm" := value]> ns) extras).
  unfold Argparse.check_value. simpl Argparse.choices.
  destruct (decide (value ∈ Paraboloid.algorithms)) as [Hin|Hnin].
  - rewrite decide_True by exact Hin. reflexivity.
  - rewrite decide_False by exact Hnin. reflexivity.
Qed.

Lemma paraboloid_parse_ok (argv : list (string * string)) (ns ns' : gmap string string)
    (extras : bool) :
  Argparse.parse Paraboloid.parser argv ns extras = Ok ns' →
  ns' !! "algorithm" = ns !! "algorithm" ∨
  ∃ a, a ∈ Paraboloid.algorithms ∧ ns' !! "algorithm" = Some a.
Proof.
  assert (Hstore : ∀ rest ns extras chosen a,
    (∀ ns extras, Argparse.parse Paraboloid.parser rest ns extras = Ok ns' →
       ns' !! "algorithm" = ns !! "algorithm" ∨
       ∃ a, a ∈ Paraboloid.algorithms ∧ ns' !! "algorithm" = Some a) →
    a ∈ Paraboloid.parser →
    (Argparse.check_value a chosen ≫= λ _,
       Argparse.parse Paraboloid.parser rest (<[Argparse.dest a := chosen]> ns) extras)
      = Ok ns' →
    ∃ a, a ∈ Paraboloid.algorithms ∧ ns' !! "algorithm" = Some a).
  { intros rest ns0 extras0 chosen a IH Ha Hparse.
    apply list_elem_of_singleton in Ha as ->.
    apply bind_Ok_inv in Hparse as ([] & Hcheck & Hparse).
    unfold Argparse.check_value in Hcheck. simpl in Hcheck.
    destruct (decide (chosen ∈ Paraboloid.algorithms)) as [Hin|]; [|discriminate].
    destruct (IH _ _ Hparse) as [Hsame | Hnew]; [|exact Hnew].
    exists chosen. split; [exact Hin|]. rewrite Hsame. apply lookup_insert_eq. }
  revert ns extras. induction argv as [|[f value] rest IH]; intros ns extras Hparse.
  - simpl in Hparse. destruct extras; [discriminate|].
    injection Hparse as <-. left; reflexivity.
  - simpl in Hparse.
    destruct (Argparse.classify Paraboloid.parser f) as [[|a] [e|]| | | |] eqn:Hread;
      try discriminate.
    + right. apply classify_store in Hread. exact (Hstore _ _ _ _ _ IH Hread Hparse).
    + right. apply classify_store in Hread. exact (Hstore _ _ _ _ _ IH Hread Hparse).
    + apply IH in Hparse. exact Hparse.
Qed.

Lemma paraboloid_parse_reject (argv : list (string * string)) (ns : gmap string string)
    (extras : bool) :
  Forall (λ p, p.1 = "--algorithm") argv → ¬ Forall accepted argv →
  Argparse.parse Paraboloid.parser argv ns extras = Raise (SystemExit 2).
Proof.
  revert ns. induction argv as [|[f value] rest IH]; intros ns Hflags Hbad.
  - destruct Hbad. constructor.
  - apply Forall_cons in Hflags as [Hf Hflags]. simpl in Hf. subst f.
    rewrite paraboloid_parse_step.
    destruct (decide (value ∈ Paraboloid.algorithms)) as [Hin|]; [|reflexivity].
    apply IH; [exact Hflags|]. intros Hrest. apply Hbad.
    constructor; [split; [reflexivity | exact Hin] | exact Hrest].
Qed.

Lemma paraboloid_parse_stops (argv : list (string * string)) (ns : gmap string string)
    (extras : bool) (x : string) :
  ("--algorithm", x) ∈ argv → x ∉ Paraboloid.algorithms →
  ∃ status, Argparse.parse Paraboloid.parser argv ns extras = Raise (SystemExit status).
Proof.
  intros Hin Hbad. revert ns extras.
  induction argv as [|[f value] rest IH]; intros ns extras; [inversion Hin|].
  apply elem_of_cons in Hin as [[= <- <-] | Hin].
  { rewrite paraboloid_parse_step, decide_False by exact Hbad. eauto. }
  specialize (IH Hin). simpl.
  assert (Hstore : ∀ a chosen extras,
    ∃ status, (Argparse.check_value a chosen ≫= λ _,
        Argparse.parse Paraboloid.parser rest (<[Argparse.dest a := chosen]> ns) extras)
      = Raise (SystemExit status)).
  { intros a chosen extras'. unfold Argparse.check_value.
    destruct (Argparse.choices a) as [cs|]; [destruct (decide (chosen ∈ cs))|];
      first [apply IH | eexists; reflexivity]. }
  destruct (Argparse.classify Paraboloid.parser f) as [[|a] [e|]| | | |];
    first [apply Hstore | apply IH | eexists; reflexivity].
Qed.

(** C7. Script 1 takes the single optional flag [--algorithm] with choices
    [ip], [tr], [mma] and default [ip].  Without the flag the driver gets
    [ip]; a value among the choices is stored unchanged into the driver
    option [algorithm]; any other value ends the script in the parser with
    [SystemExit(2)], before the driver is created, also when the flag is
    repeated; whatever else the command line holds, the flag with a value
    outside the choices keeps the script from reaching the driver; so a run
    that reaches the driver has one of the three choices in the option. *)
Theorem paraboloid_algorithm (value : string) :
  Paraboloid.main [] = Ok {| Paraboloid.options := {[ "algorithm" := "ip" ]} |} ∧
  Paraboloid.main [("--algorithm", value)] =
    (if decide (value ∈ ["ip"; "tr"; "mma"])
     then Ok {| Paraboloid.options := {[ "algorithm" := value ]} |}
     else Raise (SystemExit 2)) ∧
  (∀ argv x, Forall (λ p, p.1 = "--algorithm") argv →
     ("--algorithm", x) ∈ argv → x ∉ ["ip"; "tr"; "mma"] →
     Paraboloid.main argv = Raise (SystemExit 2)) ∧
  (∀ argv x, ("--algorithm", x) ∈ argv → x ∉ ["ip"; "tr"; "mma"] →
     ∃ status, Paraboloid.main argv = Raise (SystemExit status)) ∧
  (∀ argv d, Paraboloid.main argv = Ok d →
     ∃ a, a ∈ ["ip"; "tr"; "mma"] ∧ Paraboloid.options d = {[ "algorithm" := a ]}).
Proof.
  split; [reflexivity|]. split; [|split; [|split]].
  - unfold Paraboloid.main, Argparse.parse_args.
    change (Argparse.ambiguous Paraboloid.parser [("--algorithm", value)]) with false.
    cbv iota. rewrite paraboloid_parse_step.
    destruct (decide (value ∈ Paraboloid.algorithms)) as [Hin|Hnin].
    + rewrite decide_True by exact Hin. reflexivity.
    + rewrite decide_False by exact Hnin. reflexivity.
  - intros argv x Hflags Hin Hbad. unfold Paraboloid.main, Argparse.parse_args.
    destruct (Argparse.ambiguous Paraboloid.parser argv); [reflexivity|].
    rewrite paraboloid_parse_reject; [reflexivity | exact Hflags |].
    intros Hall. rewrite Forall_forall in Hall. destruct (Hall _ Hin) as [_ Hx].
    simpl in Hx. contradiction.
  - intros argv x Hin Hbad. unfold Paraboloid.main, Argparse.parse_args.
    destruct (Argparse.ambiguous Paraboloid.parser argv); [eexists; reflexivity|].
    destruct (paraboloid_parse_stops argv (Argparse.defaults Paraboloid.parser) false x
                Hin Hbad) as [status ->].
    eexists; reflexivity.
  - intros argv d. unfold Paraboloid.main, Argparse.parse_args. intros Hmain.
    apply bind_Ok_inv in Hmain as (args & Hparse & Hmain).
    destruct (Argparse.ambiguous Paraboloid.parser argv); [discriminate|].
    apply paraboloid_parse_ok in Hparse as Hval.
    assert (Halg : ∃ a, a ∈ Paraboloid.algorithms ∧ args !! "algorithm" = Some a).
    { destruct Hval as [Hsame | Hnew]; [|exact Hnew].
      exists "ip". split; [set_solver | rewrite Hsame; reflexivity]. }
    destruct Halg as (a & Ha & Hlook).
    unfold Argparse.getattr in Hmain. rewrite Hlook in Hmain.
    injection Hmain as <-. exists a. split; [exact Ha|]. reflexivity.
Qed.

Lemma paraboloid_algorithm_witness :
  Paraboloid.main [("--algorithm", "tr")] =
    Ok {| Paraboloid.options := {[ "algorithm" := "tr" ]} |} ∧
  Paraboloid.main [("--algorithm", "slsqp")] = Raise (SystemExit 2).
Proof.
  split.
  - exact (proj1 (proj2 (paraboloid_algorithm "tr"))).
  - exact (proj1 (proj2 (paraboloid_algorithm "slsqp"))).
Defined.



End CommandLine.

(** ** The properties at the two concrete states *)

Section Examples.
Local Open Scope R_scope.

Lemma example_reachable : reachable 2 example_state.
Proof. exact (reachable_with_inputs 2 [3; 4] 10 [0; 0] eq_refl eq_refl). Qed.

Lemma example_step : run_compute example_state = Ok example_later.
Proof.
  unfold run_compute.
  change (inputs example_state) with (inputs_of [3; 4] 10 [0; 0]).
  change (outputs example_state)
    with (outputs_of (Np.zeros (F:=R) 2) (Np.zeros 2) (Np.zeros 2)).
  rewrite compute_closed by reflexivity. reflexivity.
Qed.

Lemma example_later_reachable : reachable 2 example_later.
Proof.
  apply (reachable_step 2 example_state); [exact example_reachable|].
  apply step_compute, example_step.
Qed.

Lemma compute_rates_witness :
  reachable 2 example_state ∧
  inputs example_state = inputs_of [3; 4] 10 [0; 0] ∧
  ∃ out, compute (inputs example_state) (outputs example_state) = Ok out ∧
         dom out = ({[ "xdot"; "ydot"; "vdot" ]} : gset string).
Proof.
  split; [exact example_reachable|]. split; [reflexivity|].
  destruct (compute_rates 2 example_state [3; 4] 10 [0; 0] example_reachable eq_refl)
    as (out & _ & _ & _ & Hcomp & Hdom & _).
  exists out. split; assumption.
Defined.

Lemma compute_partials_values_witness :
  reachable 2 example_state ∧
  inputs example_state = inputs_of [3; 4] 10 [0; 0] ∧
  ∃ jac, compute_partials (inputs example_state) (partials example_state) = Ok jac ∧
         dom jac = ({[ ("vdot", "g"); ("vdot", "theta"); ("xdot", "v"); ("xdot", "theta");
                       ("ydot", "v"); ("ydot", "theta") ]} : gset (string * string)).
Proof.
  split; [exact example_reachable|]. split; [reflexivity|].
  destruct (compute_partials_values 2 example_state [3; 4] 10 [0; 0]
              example_reachable eq_refl)
    as (jac & _ & _ & _ & _ & _ & _ & Hcomp & Hdom & _).
  exists jac. split; assumption.
Defined.

Lemma jacobian_exact_witness :
  reachable 2 example_state ∧
  inputs example_state = inputs_of [3; 4] 10 [0; 0] ∧
  [3; 4] !! 1%nat = Some 4 ∧ [0; 0] !! 1%nat = Some 0 ∧
  derivable_pt_lim
    (λ x, rate "xdot" (inputs_of [3; 4] 10 (<[1%nat := x]> [0; 0])) (outputs example_state) 1)
    0 (stored "xdot" "theta" (inputs example_state) (partials example_state) 1).
Proof.
  split; [exact example_reachable|]. do 3 (split; [reflexivity|]).
  exact (proj1 (proj2 (proj2 (proj2
    (jacobian_exact 2 example_state [3; 4] 10 [0; 0] 1 4 0
       example_reachable eq_refl eq_refl eq_refl))))).
Defined.

Lemma jacobian_sparsity_witness :
  reachable 2 example_state ∧
  inputs example_state = inputs_of [3; 4] 10 [0; 0] ∧
  pattern (partials example_state) = declared_pattern 2.
Proof.
  split; [exact example_reachable|]. split; [reflexivity|].
  exact (proj1 (jacobian_sparsity 2 example_state [3; 4] 10 [0; 0]
                  example_reachable eq_refl)).
Defined.

Lemma evaluation_deterministic_witness :
  reachable 2 example_state ∧ reachable 2 example_later ∧
  inputs example_state = inputs example_later ∧
  ∃ out, compute (inputs example_state) (outputs example_state) = Ok out ∧
         compute (inputs example_later) (outputs example_later) = Ok out.
Proof.
  split; [exact example_reachable|]. split; [exact example_later_reachable|].
  split; [reflexivity|].
  exact (proj1 (evaluation_deterministic 2 2 example_state example_later
                  example_reachable example_later_reachable eq_refl)).
Defined.

Lemma evaluation_total_witness :
  length [3; 4] = 2%nat ∧ length [0; 0] = 2%nat ∧
  ∃ c, reachable 2 c ∧ inputs c = inputs_of [3; 4] 10 [0; 0].
Proof.
  do 2 (split; [reflexivity|]).
  exact (proj1 (evaluation_total 2 [3; 4] 10 [0; 0] eq_refl eq_refl)).
Defined.

Lemma speed_consistency_witness :
  reachable 2 example_state ∧
  inputs example_state = inputs_of [3; 4] 10 [0; 0] ∧
  [3; 4] !! 1%nat = Some 4 ∧
  rate "xdot" (inputs example_state) (outputs example_state) 1 ^ 2
    + rate "ydot" (inputs example_state) (outputs example_state) 1 ^ 2 = 4 ^ 2.
Proof.
  split; [exact example_reachable|]. do 2 (split; [reflexivity|]).
  exact (speed_consistency 2 example_state [3; 4] 10 [0; 0] 1 4
           example_reachable eq_refl eq_refl).
Defined.
End Examples.

(** ** The evaluations on arbitrary containers *)

Section Containers.
Context {F : Type} `{Scalar F}.

Lemma setitem_inv (name : string) (value : list F) (vec vec' : gmap string (list F)) :
  Om.setitem name value vec = Ok vec' →
  ∃ old new, vec !! name = Some old ∧ Np.assign old value = Ok new ∧
             vec' = <[name := new]> vec.
Proof.
  unfold Om.setitem. destruct (vec !! name) as [old|]; [|discriminate].
  intros Hset. apply bind_Ok_inv in Hset as (new & Hnew & [= <-]).
  exists old, new. auto.
Qed.

Lemma assign_fixed (old value new : list F) :
  Np.assign old value = Ok new → Np.assign new value = Ok new.
Proof.
  intros Hassign. pose proof (assign_length _ _ _ Hassign) as Hlen.
  unfold Np.assign in *. destruct value as [|x [|x' value]].
  - case_decide; [|discriminate]. injection Hassign as <-.
    rewrite decide_True by reflexivity. reflexivity.
  - injection Hassign as <-. rewrite length_replicate. reflexivity.
  - case_decide; [|discriminate]. injection Hassign as <-.
    rewrite decide_True by reflexivity. reflexivity.
Qed.

Lemma setitem_shape (name : string) (value : list F) (vec vec' : gmap string (list F)) :
  Om.setitem name value vec = Ok vec' → shape vec' = shape vec.
Proof.
  intros Hset. apply setitem_inv in Hset as (old & new & Hold & Hnew & ->).
  unfold shape. rewrite fmap_insert. apply insert_id.
  rewrite lookup_fmap, Hold. simpl. f_equal. symmetry. apply (assign_length _ _ _ Hnew).
Qed.

Lemma setitem_fixed (name : string) (value new : list F) (vec : gmap string (list F)) :
  vec !! name = Some new → Np.assign new value = Ok new →
  Om.setitem name value vec = Ok vec.
Proof.
  intros Hlook Hassign. unfold Om.setitem. rewrite Hlook, Hassign, bind_Ok.
  f_equal. apply insert_id, Hlook.
Qed.

(** The steps of a call of [compute] that returns. *)
Lemma compute_inv (inp out out' : gmap string (list F)) :
  compute inp out = Ok out' →
  ∃ theta g v vdot xdot ydot out1 out2,
    inp !! "theta" = Some theta ∧ inp !! "g" = Some g ∧ inp !! "v" = Some v ∧
    Np.mul g (Np.cos theta) = Ok vdot ∧ Om.setitem "vdot" vdot out = Ok out1 ∧
    Np.mul v (Np.sin theta) = Ok xdot ∧ Om.setitem "xdot" xdot out1 = Ok out2 ∧
    Np.mul (Np.neg v) (Np.cos theta) = Ok ydot ∧ Om.setitem "ydot" ydot out2 = Ok out'.
Proof.
  unfold compute, Om.getitem. intros Hcomp.
  destruct (inp !! "theta") as [theta|]; [|discriminate].
  destruct (inp !! "g") as [g|]; [|discriminate].
  destruct (inp !! "v") as [v|]; [|discriminate].
  rewrite !bind_Ok in Hcomp. cbv zeta in Hcomp.
  apply bind_Ok_inv in Hcomp as (vdot & Hvd & Hcomp).
  apply bind_Ok_inv in Hcomp as (out1 & Hset1 & Hcomp).
  apply bind_Ok_inv in Hcomp as (xdot & Hxd & Hcomp).
  apply bind_Ok_inv in Hcomp as (out2 & Hset2 & Hcomp).
  apply bind_Ok_inv in Hcomp as (ydot & Hyd & Hset3).
  exists theta, g, v, vdot, xdot, ydot, out1, out2. auto 10.
Qed.

(** X1. [compute] needs its three inputs: when [theta], [g] or [v] is
    missing from the input vector the call raises [KeyError], whatever the
    output vector holds; and a call that returns had all three inputs and the
    three outputs [xdot], [ydot], [vdot] declared. *)
Theorem compute_missing_key (inp out : gmap string (list F)) :
  (inp !! "theta" = None ∨ inp !! "g" = None ∨ inp !! "v" = None →
   compute inp out = Raise KeyError) ∧
  (∀ out', compute inp out = Ok out' →
     is_Some (inp !! "theta") ∧ is_Some (inp !! "g") ∧ is_Some (inp !! "v") ∧
     is_Some (out !! "xdot") ∧ is_Some (out !! "ydot") ∧ is_Some (out !! "vdot")).
Proof.
  split.
  - intros Hmissing. unfold compute, Om.getitem.
    destruct (inp !! "theta") as [theta|]; [|reflexivity].
    destruct (inp !! "g") as [g|]; [|reflexivity].
    destruct (inp !! "v") as [v|]; [|reflexivity].
    destruct Hmissing as [Hm | [Hm | Hm]]; discriminate.
  - intros out' Hcomp.
    apply compute_inv in Hcomp
      as (theta & g & v & vd & xd & yd & out1 & out2 &
          Ht & Hg & Hv & _ & Hs1 & _ & Hs2 & _ & Hs3).
    apply setitem_inv in Hs1 as (o1 & n1 & Ho1 & _ & ->).
    apply setitem_inv in Hs2 as (o2 & n2 & Ho2 & _ & ->).
    apply setitem_inv in Hs3 as (o3 & n3 & Ho3 & _ & _).
    rewrite lookup_insert_ne in Ho2 by discriminate.
    rewrite !lookup_insert_ne in Ho3 by discriminate.
    rewrite Ht, Hg, Hv, Ho1, Ho2, Ho3. eauto 10.
Qed.

(** X2. [compute] keeps the layout of the output vector it is given: after a
    call that returns, the vector has the same names as before and every
    array has the length it had, whatever the shapes of the inputs (values
    are broadcast into the declared arrays, names are never added or
    dropped). *)
Theorem compute_keeps_shape (inp out out' : gmap string (list F)) :
  compute inp out = Ok out' → shape out' = shape out ∧ dom out' = dom out.
Proof.
  intros Hcomp.
  apply compute_inv in Hcomp
    as (theta & g & v & vd & xd & yd & out1 & out2 &
        _ & _ & _ & _ & Hs1 & _ & Hs2 & _ & Hs3).
  assert (Hshape : shape out' = shape out).
  { rewrite (setitem_shape _ _ _ _ Hs3), (setitem_shape _ _ _ _ Hs2).
    apply (setitem_shape _ _ _ _ Hs1). }
  split; [exact Hshape|].
  unfold shape in Hshape.
  rewrite <- (dom_fmap_L length out'), <- (dom_fmap_L length out), Hshape. reflexivity.
Qed.

(** X3. [compute] is idempotent on the output vector: calling it again with
    the same inputs on the vector a first call left behind returns and
    changes nothing. *)
Theorem compute_idempotent (inp out out' : gmap string (list F)) :
  compute inp out = Ok out' → compute inp out' = Ok out'.
Proof.
  intros Hcomp.
  apply compute_inv in Hcomp
    as (theta & g & v & vd & xd & yd & out1 & out2 &
        Ht & Hg & Hv & Hvd & Hs1 & Hxd & Hs2 & Hyd & Hs3).
  apply setitem_inv in Hs1 as (o1 & n1 & Ho1 & Ha1 & ->).
  apply setitem_inv in Hs2 as (o2 & n2 & Ho2 & Ha2 & ->).
  apply setitem_inv in Hs3 as (o3 & n3 & Ho3 & Ha3 & ->).
  apply assign_fixed in Ha1, Ha2, Ha3.
  unfold compute, Om.getitem. rewrite Ht, Hg, Hv, !bind_Ok. cbv zeta.
  rewrite Hvd, bind_Ok.
  rewrite (setitem_fixed "vdot" vd n1), bind_Ok; [|by simplify_map_eq|exact Ha1].
  rewrite Hxd, bind_Ok.
  rewrite (setitem_fixed "xdot" xd n2), bind_Ok; [|by simplify_map_eq|exact Ha2].
  rewrite Hyd, bind_Ok.
  apply (setitem_fixed "ydot" yd n3); [by simplify_map_eq|exact Ha3].
Qed.
End Containers.

Lemma example_compute :
  compute (inputs example_state) (outputs example_state) = Ok (outputs example_later).
Proof.
  change (inputs example_state) with (inputs_of [3; 4]%R 10%R [0; 0]%R).
  change (outputs example_state)
    with (outputs_of (Np.zeros (F:=R) 2) (Np.zeros 2) (Np.zeros 2)).
  rewrite compute_closed by reflexivity. reflexivity.
Qed.

Lemma compute_missing_key_witness :
  (∅ : gmap string (list R)) !! "theta" = None ∧
  compute (F:=R) ∅ ∅ = Raise KeyError.
Proof.
  split; [reflexivity|].
  apply (proj1 (compute_missing_key (F:=R) ∅ ∅)). left. reflexivity.
Defined.

Lemma compute_keeps_shape_witness :
  compute (inputs example_state) (outputs example_state) = Ok (outputs example_later) ∧
  shape (outputs example_later) = shape (outputs example_state).
Proof.
  split; [exact example_compute|].
  exact (proj1 (compute_keeps_shape _ _ _ example_compute)).
Defined.

Lemma compute_idempotent_witness :
  compute (inputs example_state) (outputs example_state) = Ok (outputs example_later) ∧
  compute (inputs example_state) (outputs example_later) = Ok (outputs example_later).
Proof.
  split; [exact example_compute|].
  exact (compute_idempotent _ _ _ example_compute).
Defined.

Section JacobianContainer.
Context {F : Type} `{Scalar F}.

Lemma jac_setitem_inv (of_ wrt : string) (value : list F)
    (jac jac' : gmap (string * string) (Om.Subjac F)) :
  Om.jac_setitem of_ wrt value jac = Ok jac' →
  ∃ sj new, jac !! (of_, wrt) = Some sj ∧ Np.assign (Om.val sj) value = Ok new ∧
            jac' = <[(of_, wrt) := {| Om.rows := Om.rows sj; Om.cols := Om.cols sj;
                                       Om.val := new |}]> jac.
Proof.
  unfold Om.jac_setitem. destruct (jac !! (of_, wrt)) as [sj|]; [|discriminate].
  intros Hset. apply bind_Ok_inv in Hset as (new & Hnew & [= <-]).
  exists sj, new. auto.
Qed.

Lemma jac_setitem_layout (of_ wrt : string) (value : list F)
    (jac jac' : gmap (string * string) (Om.Subjac F)) :
  Om.jac_setitem of_ wrt value jac = Ok jac' →
  is_Some (jac !! (of_, wrt)) ∧
  pattern jac' = pattern jac ∧ value_lengths jac' = value_lengths jac.
Proof.
  intros Hset. apply jac_setitem_inv in Hset as (sj & new & Hsj & Hnew & ->).
  split; [eauto|]. unfold pattern, value_lengths. rewrite !fmap_insert. simpl.
  split; apply insert_id; rewrite lookup_fmap, Hsj; simpl; [reflexivity|].
  f_equal. symmetry. apply (assign_length _ _ _ Hnew).
Qed.

Lemma pattern_is_Some (jac jac' : gmap (string * string) (Om.Subjac F))
    (key : string * string) :
  pattern jac' = pattern jac → is_Some (jac' !! key) → is_Some (jac !! key).
Proof.
  intros Hpat [sj Hsj].
  assert (Hkey : pattern jac' !! key = pattern jac !! key) by (rewrite Hpat; reflexivity).
  unfold pattern in Hkey. rewrite !lookup_fmap, Hsj in Hkey.
  destruct (jac !! key) as [sj'|]; [eauto | discriminate].
Qed.

(** X4. [compute_partials] only fills values in: after a call that returns,
    the Jacobian has the same blocks, every block has the rows and columns
    it was declared with and as many values as before; and the call returns
    only when all six blocks that [setup] declares are there. *)
Theorem compute_partials_keeps_layout (inp : gmap string (list F))
    (jac jac' : gmap (string * string) (Om.Subjac F)) :
  compute_partials inp jac = Ok jac' →
  pattern jac' = pattern jac ∧ value_lengths jac' = value_lengths jac ∧
  dom jac' = dom jac ∧
  ∀ key, key ∈ [("vdot", "g"); ("vdot", "theta"); ("xdot", "v"); ("xdot", "theta");
                ("ydot", "v"); ("ydot", "theta")] → is_Some (jac !! key).
Proof.
  unfold compute_partials. intros Hcomp.
  apply bind_Ok_inv in Hcomp as (theta & _ & Hcomp).
  apply bind_Ok_inv in Hcomp as (g & _ & Hcomp).
  apply bind_Ok_inv in Hcomp as (v & _ & Hcomp). cbv zeta in Hcomp.
  apply bind_Ok_inv in Hcomp as (jac1 & Hs1 & Hcomp).
  apply bind_Ok_inv in Hcomp as (a2 & _ & Hcomp).
  apply bind_Ok_inv in Hcomp as (jac2 & Hs2 & Hcomp).
  apply bind_Ok_inv in Hcomp as (jac3 & Hs3 & Hcomp).
  apply bind_Ok_inv in Hcomp as (a4 & _ & Hcomp).
  apply bind_Ok_inv in Hcomp as (jac4 & Hs4 & Hcomp).
  apply bind_Ok_inv in Hcomp as (jac5 & Hs5 & Hcomp).
  apply bind_Ok_inv in Hcomp as (a6 & _ & Hs6).
  apply jac_setitem_layout in Hs1 as (Hk1 & Hp1 & Hl1).
  apply jac_setitem_layout in Hs2 as (Hk2 & Hp2 & Hl2).
  apply jac_setitem_layout in Hs3 as (Hk3 & Hp3 & Hl3).
  apply jac_setitem_layout in Hs4 as (Hk4 & Hp4 & Hl4).
  apply jac_setitem_layout in Hs5 as (Hk5 & Hp5 & Hl5).
  apply jac_setitem_layout in Hs6 as (Hk6 & Hp6 & Hl6).
  assert (Hp : pattern jac' = pattern jac) by congruence.
  assert (Hp2' : pattern jac2 = pattern jac) by congruence.
  assert (Hp3' : pattern jac3 = pattern jac) by congruence.
  assert (Hp4' : pattern jac4 = pattern jac) by congruence.
  assert (Hp5' : pattern jac5 = pattern jac) by congruence.
  split; [exact Hp|]. split; [congruence|]. split.
  - unfold pattern in Hp.
    rewrite <- (dom_fmap_L (λ sj, (Om.rows sj, Om.cols sj)) jac'), Hp.
    apply dom_fmap_L.
  - intros key Hkey. rewrite !elem_of_cons, elem_of_nil in Hkey.
    destruct Hkey as [-> | [-> | [-> | [-> | [-> | [-> | []]]]]]].
    + exact Hk1.
    + exact (pattern_is_Some _ _ _ Hp1 Hk2).
    + exact (pattern_is_Some _ _ _ Hp2' Hk3).
    + exact (pattern_is_Some _ _ _ Hp3' Hk4).
    + exact (pattern_is_Some _ _ _ Hp4' Hk5).
    + exact (pattern_is_Some _ _ _ Hp5' Hk6).
Qed.
End JacobianContainer.

Lemma example_compute_partials :
  compute_partials (inputs example_state) (partials example_state) =
    Ok (partials_of 2 (Np.cos [0; 0]%R) (dvdot_dtheta_of 10%R [0; 0]%R)
          (Np.sin [0; 0]%R) (dxdot_dtheta_of [3; 4]%R [0; 0]%R)
          (Np.neg (Np.cos [0; 0]%R)) (dydot_dtheta_of [3; 4]%R [0; 0]%R)).
Proof.
  change (inputs example_state) with (inputs_of [3; 4]%R 10%R [0; 0]%R).
  change (partials example_state)
    with (partials_of (F:=R) 2 (Np.zeros 2) (Np.zeros 2) (Np.zeros 2)
            (Np.zeros 2) (Np.zeros 2) (Np.zeros 2)).
  apply (compute_partials_closed 2); reflexivity.
Qed.

Lemma compute_partials_keeps_layout_witness :
  compute_partials (inputs example_state) (partials example_state) =
    Ok (partials_of 2 (Np.cos [0; 0]%R) (dvdot_dtheta_of 10%R [0; 0]%R)
          (Np.sin [0; 0]%R) (dxdot_dtheta_of [3; 4]%R [0; 0]%R)
          (Np.neg (Np.cos [0; 0]%R)) (dydot_dtheta_of [3; 4]%R [0; 0]%R)) ∧
  pattern (partials_of 2 (Np.cos [0; 0]%R) (dvdot_dtheta_of 10%R [0; 0]%R)
          (Np.sin [0; 0]%R) (dxdot_dtheta_of [3; 4]%R [0; 0]%R)
          (Np.neg (Np.cos [0; 0]%R)) (dydot_dtheta_of [3; 4]%R [0; 0]%R))
    = pattern (partials example_state).
Proof.
  split; [exact example_compute_partials|].
  exact (proj1 (compute_partials_keeps_layout _ _ _ example_compute_partials)).
Defined.

(** ** The physics of the rates, over the reals *)

Section Physics.
Local Open Scope R_scope.

(** The three rates of a reachable state at node [i]. *)
Lemma rates_here (nn : nat) (c : Component R) (v : list R) (g : R) (theta : list R)
    (i : nat) (vi ti : R) :
  reachable nn c → inputs c = inputs_of v g theta →
  v !! i = Some vi → theta !! i = Some ti →
  rate "xdot" (inputs c) (outputs c) i = vi * sin ti ∧
  rate "ydot" (inputs c) (outputs c) i = - vi * cos ti ∧
  rate "vdot" (inputs c) (outputs c) i = g * cos ti.
Proof.
  intros Hreach Hin Hvi Hti.
  destruct (compute_reachable nn c v g theta Hreach Hin) as (Hv & Ht & _).
  rewrite Hin. exact (rates_at nn c v g theta i vi ti Hreach Hv Ht Hvi Hti).
Qed.

(** X5. Conservation of energy: at every node the rates that [compute]
    returns satisfy [v * vdot + g * ydot = 0], so [v^2 / 2 + g * y] is
    constant along any trajectory that follows them. *)
Theorem energy_conserved (nn : nat) (c : Component R) (v : list R) (g : R) (theta : list R)
    (i : nat) (vi : R) :
  reachable nn c → inputs c = inputs_of v g theta → v !! i = Some vi →
  vi * rate "vdot" (inputs c) (outputs c) i + g * rate "ydot" (inputs c) (outputs c) i = 0.
Proof.
  intros Hreach Hin Hvi.
  destruct (compute_reachable nn c v g theta Hreach Hin) as (Hv & Ht & _).
  destruct (lookup_lt_is_Some_2 theta i) as [ti Hti].
  { rewrite Ht, <- Hv. eapply lookup_lt_Some; eassumption. }
  destruct (rates_here nn c v g theta i vi ti Hreach Hin Hvi Hti) as (_ & -> & ->).
  ring.
Qed.

Lemma Rabs_mul_le (a b : R) : Rabs b <= 1 → Rabs (a * b) <= Rabs a.
Proof.
  intros Hb. rewrite Rabs_mult. pose proof (Rabs_pos a).
  replace (Rabs a) with (Rabs a * 1) at 2 by ring.
  apply Rmult_le_compat_l; assumption.
Qed.

Lemma Rabs_sin_le (x : R) : Rabs (sin x) <= 1.
Proof. apply Rabs_le, SIN_bound. Qed.

Lemma Rabs_cos_le (x : R) : Rabs (cos x) <= 1.
Proof. apply Rabs_le, COS_bound. Qed.

(** X6. Bounds: at every node the horizontal and the vertical velocity are
    at most the speed in absolute value, and the acceleration is at most the
    gravity. *)
Theorem rates_bounded (nn : nat) (c : Component R) (v : list R) (g : R) (theta : list R)
    (i : nat) (vi : R) :
  reachable nn c → inputs c = inputs_of v g theta → v !! i = Some vi →
  Rabs (rate "xdot" (inputs c) (outputs c) i) <= Rabs vi ∧
  Rabs (rate "ydot" (inputs c) (outputs c) i) <= Rabs vi ∧
  Rabs (rate "vdot" (inputs c) (outputs c) i) <= Rabs g.
Proof.
  intros Hreach Hin Hvi.
  destruct (compute_reachable nn c v g theta Hreach Hin) as (Hv & Ht & _).
  destruct (lookup_lt_is_Some_2 theta i) as [ti Hti].
  { rewrite Ht, <- Hv. eapply lookup_lt_Some; eassumption. }
  destruct (rates_here nn c v g theta i vi ti Hreach Hin Hvi Hti) as (-> & -> & ->).
  split; [apply Rabs_mul_le, Rabs_sin_le|].
  split; [|apply Rabs_mul_le, Rabs_cos_le].
  rewrite <- (Rabs_Ropp vi). apply Rabs_mul_le, Rabs_cos_le.
Qed.

(** X7. Direction of motion inside the control bounds of the script
    ([theta] between 0 and [pi]): a bead with non-negative speed never moves
    backwards, [xdot >= 0]; and while the wire points downwards ([theta] at
    most [pi / 2]) it does not rise, [ydot <= 0], and under a non-negative
    gravity it does not slow down, [vdot >= 0]. *)
Theorem motion_within_bounds (nn : nat) (c : Component R) (v : list R) (g : R)
    (theta : list R) (i : nat) (vi ti : R) :
  reachable nn c → inputs c = inputs_of v g theta →
  v !! i = Some vi → theta !! i = Some ti →
  (∀ ctl, ctl ∈ Phase.controls → Phase.lower ctl <= ti <= Phase.upper ctl) →
  0 <= vi →
  0 <= rate "xdot" (inputs c) (outputs c) i ∧
  (ti <= PI / 2 →
     rate "ydot" (inputs c) (outputs c) i <= 0 ∧
     (0 <= g → 0 <= rate "vdot" (inputs c) (outputs c) i)).
Proof.
  intros Hreach Hin Hvi Hti Hbounds Hpos.
  destruct (rates_here nn c v g theta i vi ti Hreach Hin Hvi Hti) as (-> & -> & ->).
  destruct (Hbounds _ (list_elem_of_here _ _)) as [Hlo Hhi]. simpl in Hlo, Hhi.
  split.
  - apply Rmult_le_pos; [assumption | apply sin_ge_0; assumption].
  - intros Hhalf.
    assert (Hcos : 0 <= cos ti).
    { apply cos_ge_0; [|assumption]. pose proof PI_RGT_0. lra. }
    split; [nra|]. intros Hg. apply Rmult_le_pos; assumption.
Qed.

(** X8. The two special angles: on a vertical wire ([theta = 0]) the bead
    falls freely, [xdot = 0], [ydot = -v], [vdot = g]; on a horizontal wire
    ([theta = pi / 2], the initial guess of the script) it coasts,
    [xdot = v], [ydot = 0], [vdot = 0]. *)
Theorem special_angles (nn : nat) (c : Component R) (v : list R) (g : R) (theta : list R)
    (i : nat) (vi ti : R) :
  reachable nn c → inputs c = inputs_of v g theta →
  v !! i = Some vi → theta !! i = Some ti →
  (ti = 0 →
     rate "xdot" (inputs c) (outputs c) i = 0 ∧
     rate "ydot" (inputs c) (outputs c) i = - vi ∧
     rate "vdot" (inputs c) (outputs c) i = g) ∧
  (ti = PI / 2 →
     rate "xdot" (inputs c) (outputs c) i = vi ∧
     rate "ydot" (inputs c) (outputs c) i = 0 ∧
     rate "vdot" (inputs c) (outputs c) i = 0).
Proof.
  intros Hreach Hin Hvi Hti.
  destruct (rates_here nn c v g theta i vi ti Hreach Hin Hvi Hti) as (-> & -> & ->).
  split; intros ->.
  - rewrite sin_0, cos_0. repeat split; ring.
  - rewrite sin_PI2, cos_PI2. repeat split; ring.
Qed.

(** X9. The Jacobian and the rates determine each other: what
    [compute_partials] stores for [d xdot/d theta] is [-ydot] and for
    [d ydot/d theta] is [xdot] (turning the wire turns the velocity), the
    rates are their own derivatives times the input they are linear in,
    [xdot = v * d xdot/d v], [ydot = v * d ydot/d v], [vdot = g * d vdot/d g],
    and [d ydot/d v = - d vdot/d g]. *)
Theorem jacobian_and_rates (nn : nat) (c : Component R) (v : list R) (g : R) (theta : list R)
    (i : nat) (vi : R) :
  reachable nn c → inputs c = inputs_of v g theta → v !! i = Some vi →
  stored "xdot" "theta" (inputs c) (partials c) i = - rate "ydot" (inputs c) (outputs c) i ∧
  stored "ydot" "theta" (inputs c) (partials c) i = rate "xdot" (inputs c) (outputs c) i ∧
  rate "xdot" (inputs c) (outputs c) i = vi * stored "xdot" "v" (inputs c) (partials c) i ∧
  rate "ydot" (inputs c) (outputs c) i = vi * stored "ydot" "v" (inputs c) (partials c) i ∧
  rate "vdot" (inputs c) (outputs c) i = g * stored "vdot" "g" (inputs c) (partials c) i ∧
  stored "ydot" "v" (inputs c) (partials c) i = - stored "vdot" "g" (inputs c) (partials c) i.
Proof.
  intros Hreach Hin Hvi.
  destruct (compute_reachable nn c v g theta Hreach Hin) as (Hv & Ht & _).
  destruct (lookup_lt_is_Some_2 theta i) as [ti Hti].
  { rewrite Ht, <- Hv. eapply lookup_lt_Some; eassumption. }
  destruct (rates_here nn c v g theta i vi ti Hreach Hin Hvi Hti) as (-> & -> & ->).
  destruct (stored_at nn c v g theta i vi ti Hreach Hin Hvi Hti)
    as (-> & _ & -> & -> & -> & ->).
  simpl. repeat split; ring.
Qed.
End Physics.

Lemma energy_conserved_witness :
  reachable 2 example_state ∧ inputs example_state = inputs_of [3; 4]%R 10%R [0; 0]%R ∧
  ([3; 4]%R : list R) !! 1 = Some 4%R ∧
  (4 * rate "vdot" (inputs example_state) (outputs example_state) 1
   + 10 * rate "ydot" (inputs example_state) (outputs example_state) 1 = 0)%R.
Proof.
  split; [exact example_reachable|]. do 2 (split; [reflexivity|]).
  exact (energy_conserved 2 example_state [3; 4]%R 10%R [0; 0]%R 1 4%R
           example_reachable eq_refl eq_refl).
Defined.

Lemma rates_bounded_witness :
  reachable 2 example_state ∧ inputs example_state = inputs_of [3; 4]%R 10%R [0; 0]%R ∧
  ([3; 4]%R : list R) !! 1 = Some 4%R ∧
  (Rabs (rate "xdot" (inputs example_state) (outputs example_state) 1) <= Rabs 4)%R.
Proof.
  split; [exact example_reachable|]. do 2 (split; [reflexivity|]).
  exact (proj1 (rates_bounded 2 example_state [3; 4]%R 10%R [0; 0]%R 1 4%R
                  example_reachable eq_refl eq_refl)).
Defined.

Lemma example_within_bounds (ctl : Phase.Control) :
  ctl ∈ Phase.controls → (Phase.lower ctl <= 0 <= Phase.upper ctl)%R.
Proof.
  intros Hctl. apply list_elem_of_singleton in Hctl as ->. simpl.
  pose proof PI_RGT_0. lra.
Qed.

Lemma motion_within_bounds_witness :
  reachable 2 example_state ∧ inputs example_state = inputs_of [3; 4]%R 10%R [0; 0]%R ∧
  ([3; 4]%R : list R) !! 1 = Some 4%R ∧ ([0; 0]%R : list R) !! 1 = Some 0%R ∧
  (∀ ctl, ctl ∈ Phase.controls → (Phase.lower ctl <= 0 <= Phase.upper ctl)%R) ∧
  (0 <= 4)%R ∧
  (0 <= rate "xdot" (inputs example_state) (outputs example_state) 1)%R.
Proof.
  split; [exact example_reachable|]. do 3 (split; [reflexivity|]).
  split; [exact example_within_bounds|]. split; [lra|].
  refine (proj1 (motion_within_bounds 2 example_state [3; 4]%R 10%R [0; 0]%R 1 4%R 0%R
                   example_reachable eq_refl eq_refl eq_refl example_within_bounds _)).
  lra.
Defined.

Lemma special_angles_witness :
  reachable 2 example_state ∧ inputs example_state = inputs_of [3; 4]%R 10%R [0; 0]%R ∧
  ([3; 4]%R : list R) !! 1 = Some 4%R ∧ ([0; 0]%R : list R) !! 1 = Some 0%R ∧
  rate "vdot" (inputs example_state) (outputs example_state) 1 = 10%R.
Proof.
  split; [exact example_reachable|]. do 3 (split; [reflexivity|]).
  exact (proj2 (proj2 (proj1 (special_angles 2 example_state [3; 4]%R 10%R [0; 0]%R 1 4%R 0%R
                  example_reachable eq_refl eq_refl eq_refl) eq_refl))).
Defined.

Lemma jacobian_and_rates_witness :
  reachable 2 example_state ∧ inputs example_state = inputs_of [3; 4]%R 10%R [0; 0]%R ∧
  ([3; 4]%R : list R) !! 1 = Some 4%R ∧
  stored "ydot" "theta" (inputs example_state) (partials example_state) 1
    = rate "xdot" (inputs example_state) (outputs example_state) 1.
Proof.
  split; [exact example_reachable|]. do 2 (split; [reflexivity|]).
  exact (proj1 (proj2 (jacobian_and_rates 2 example_state [3; 4]%R 10%R [0; 0]%R 1 4%R
                  example_reachable eq_refl eq_refl))).
Defined.

Section Symmetries.
Local Open Scope R_scope.

Lemma cos_shift (x : R) : cos (x + 2 * PI) = cos x.
Proof. rewrite cos_plus, cos_2PI, sin_2PI. ring. Qed.

Lemma sin_shift (x : R) : sin (x + 2 * PI) = sin x.
Proof. rewrite sin_plus, cos_2PI, sin_2PI. ring. Qed.

(** X10. Symmetries in the angle: adding a full turn to every angle leaves
    the three rates at every node as they are; mirroring every angle
    ([theta] to [-theta]) reverses [xdot] and leaves [ydot] and [vdot]. *)
Theorem angle_symmetries (nn : nat) (c : Component R) (v : list R) (g : R) (theta : list R)
    (i : nat) :
  reachable nn c → inputs c = inputs_of v g theta → (i < nn)%nat →
  (rate "xdot" (inputs_of v g ((λ t, t + 2 * PI) <$> theta)) (outputs c) i
     = rate "xdot" (inputs c) (outputs c) i ∧
   rate "ydot" (inputs_of v g ((λ t, t + 2 * PI) <$> theta)) (outputs c) i
     = rate "ydot" (inputs c) (outputs c) i ∧
   rate "vdot" (inputs_of v g ((λ t, t + 2 * PI) <$> theta)) (outputs c) i
     = rate "vdot" (inputs c) (outputs c) i) ∧
  (rate "xdot" (inputs_of v g (Ropp <$> theta)) (outputs c) i
     = - rate "xdot" (inputs c) (outputs c) i ∧
   rate "ydot" (inputs_of v g (Ropp <$> theta)) (outputs c) i
     = rate "ydot" (inputs c) (outputs c) i ∧
   rate "vdot" (inputs_of v g (Ropp <$> theta)) (outputs c) i
     = rate "vdot" (inputs c) (outputs c) i).
Proof.
  intros Hreach Hin Hi.
  destruct (compute_reachable nn c v g theta Hreach Hin) as (Hv & Ht & _).
  destruct (lookup_lt_is_Some_2 v i) as [vi Hvi]; [lia|].
  destruct (lookup_lt_is_Some_2 theta i) as [ti Hti]; [lia|].
  destruct (rates_here nn c v g theta i vi ti Hreach Hin Hvi Hti) as (-> & -> & ->).
  assert (Hshift : ((λ t, t + 2 * PI) <$> theta) !! i = Some (ti + 2 * PI))
    by (rewrite list_lookup_fmap, Hti; reflexivity).
  assert (Hneg : (Ropp <$> theta) !! i = Some (- ti))
    by (rewrite list_lookup_fmap, Hti; reflexivity).
  destruct (rates_at nn c v g _ i vi _ Hreach Hv
              (eq_trans (length_fmap _ theta) Ht) Hvi Hshift) as (-> & -> & ->).
  destruct (rates_at nn c v g _ i vi _ Hreach Hv
              (eq_trans (length_fmap _ theta) Ht) Hvi Hneg) as (-> & -> & ->).
  simpl. rewrite cos_shift, sin_shift, cos_neg, sin_neg.
  repeat split; ring.
Qed.

(** X11. Linearity: scaling every speed by [k] scales [xdot] and [ydot] at
    every node by [k] and leaves [vdot] alone; scaling the gravity by [k]
    scales [vdot] by [k] and leaves [xdot] and [ydot] alone. *)
Theorem rates_linear (nn : nat) (c : Component R) (v : list R) (g : R) (theta : list R)
    (k : R) (i : nat) :
  reachable nn c → inputs c = inputs_of v g theta → (i < nn)%nat →
  (rate "xdot" (inputs_of (Rmult k <$> v) g theta) (outputs c) i
     = k * rate "xdot" (inputs c) (outputs c) i ∧
   rate "ydot" (inputs_of (Rmult k <$> v) g theta) (outputs c) i
     = k * rate "ydot" (inputs c) (outputs c) i ∧
   rate "vdot" (inputs_of (Rmult k <$> v) g theta) (outputs c) i
     = rate "vdot" (inputs c) (outputs c) i) ∧
  (rate "xdot" (inputs_of v (k * g) theta) (outputs c) i
     = rate "xdot" (inputs c) (outputs c) i ∧
   rate "ydot" (inputs_of v (k * g) theta) (outputs c) i
     = rate "ydot" (inputs c) (outputs c) i ∧
   rate "vdot" (inputs_of v (k * g) theta) (outputs c) i
     = k * rate "vdot" (inputs c) (outputs c) i).
Proof.
  intros Hreach Hin Hi.
  destruct (compute_reachable nn c v g theta Hreach Hin) as (Hv & Ht & _).
  destruct (lookup_lt_is_Some_2 v i) as [vi Hvi]; [lia|].
  destruct (lookup_lt_is_Some_2 theta i) as [ti Hti]; [lia|].
  destruct (rates_here nn c v g theta i vi ti Hreach Hin Hvi Hti) as (-> & -> & ->).
  assert (Hscaled : (Rmult k <$> v) !! i = Some (k * vi))
    by (rewrite list_lookup_fmap, Hvi; reflexivity).
  destruct (rates_at nn c _ g theta i _ ti Hreach
              (eq_trans (length_fmap _ v) Hv) Ht Hscaled Hti) as (-> & -> & ->).
  destruct (rates_at nn c v (k * g) theta i vi ti Hreach Hv Ht Hvi Hti) as (-> & -> & ->).
  simpl. repeat split; ring.
Qed.

(** X12. Straight after [setup], before any input is supplied, an
    evaluation sees speed 0, angle 0 and the default gravity 9.80665 at every
    node: [compute] gives [xdot = 0], [ydot = 0], [vdot = 9.80665], and
    [compute_partials] stores 1, 0, 0, 0, -1, 0 for [d vdot/d g],
    [d vdot/d theta], [d xdot/d v], [d xdot/d theta], [d ydot/d v],
    [d ydot/d theta]. *)
Theorem default_evaluation (nn : nat) (c : Component R) (i : nat) :
  setup nn = Ok c → (i < nn)%nat →
  (rate "xdot" (inputs c) (outputs c) i = 0 ∧
   rate "ydot" (inputs c) (outputs c) i = 0 ∧
   rate "vdot" (inputs c) (outputs c) i = 9.80665) ∧
  (stored "vdot" "g" (inputs c) (partials c) i = 1 ∧
   stored "vdot" "theta" (inputs c) (partials c) i = 0 ∧
   stored "xdot" "v" (inputs c) (partials c) i = 0 ∧
   stored "xdot" "theta" (inputs c) (partials c) i = 0 ∧
   stored "ydot" "v" (inputs c) (partials c) i = -1 ∧
   stored "ydot" "theta" (inputs c) (partials c) i = 0).
Proof.
  intros Hsetup Hi.
  assert (Hreach : reachable nn c) by (exists c; split; [exact Hsetup | apply rtc_refl]).
  rewrite setup_closed in Hsetup. injection Hsetup as <-.
  assert (Hzero : Np.zeros (F:=R) nn !! i = Some 0)
    by (apply lookup_replicate; split; [reflexivity | exact Hi]).
  destruct (rates_here nn _ _ _ _ i 0 0 Hreach eq_refl Hzero Hzero) as (-> & -> & ->).
  destruct (stored_at nn _ _ _ _ i 0 0 Hreach eq_refl Hzero Hzero)
    as (-> & -> & -> & -> & -> & ->).
  simpl. rewrite sin_0, cos_0. repeat split; ring.
Qed.
End Symmetries.

Lemma example_setup :
  setup (F:=R) 2 =
    Ok {| num_nodes := 2;
          inputs := inputs_of (Np.zeros 2) fgravity (Np.zeros 2);
          outputs := outputs_of (Np.zeros 2) (Np.zeros 2) (Np.zeros 2);
          partials := partials_of 2 (Np.zeros 2) (Np.zeros 2) (Np.zeros 2)
                        (Np.zeros 2) (Np.zeros 2) (Np.zeros 2) |}.
Proof. apply setup_closed. Qed.

Lemma angle_symmetries_witness :
  reachable 2 example_state ∧ inputs example_state = inputs_of [3; 4]%R 10%R [0; 0]%R ∧
  1 < 2 ∧
  rate "xdot" (inputs_of [3; 4]%R 10%R (Ropp <$> [0; 0]%R)) (outputs example_state) 1
    = (- rate "xdot" (inputs example_state) (outputs example_state) 1)%R.
Proof.
  split; [exact example_reachable|]. split; [reflexivity|]. split; [lia|].
  refine (proj1 (proj2 (angle_symmetries 2 example_state [3; 4]%R 10%R [0; 0]%R 1
                          example_reachable eq_refl _))).
  lia.
Defined.

Lemma rates_linear_witness :
  reachable 2 example_state ∧ inputs example_state = inputs_of [3; 4]%R 10%R [0; 0]%R ∧
  1 < 2 ∧
  rate "vdot" (inputs_of [3; 4]%R (2 * 10)%R [0; 0]%R) (outputs example_state) 1
    = (2 * rate "vdot" (inputs example_state) (outputs example_state) 1)%R.
Proof.
  split; [exact example_reachable|]. split; [reflexivity|]. split; [lia|].
  refine (proj2 (proj2 (proj2 (rates_linear 2 example_state [3; 4]%R 10%R [0; 0]%R 2%R 1
                                 example_reachable eq_refl _)))).
  lia.
Defined.

Lemma default_evaluation_witness :
  ∃ c : Component R, setup 2 = Ok c ∧ 1 < 2 ∧
    rate "vdot" (inputs c) (outputs c) 1 = 9.80665%R.
Proof.
  eexists. split; [exact example_setup|]. split; [lia|].
  refine (proj2 (proj2 (proj1 (default_evaluation 2 _ 1 example_setup _)))).
  lia.
Defined.

(** ** The phase and the component *)

Section Wiring.
Context {F : Type} `{Scalar F}.

Lemma dom_inputs_of (v : list F) (g : F) (theta : list F) :
  dom (inputs_of v g theta) = ({[ "v"; "g"; "theta" ]} : gset string).
Proof. unfold inputs_of. rewrite !dom_insert_L, dom_singleton_L. set_solver. Qed.

(** X13. The phase of the script is wired to names the component really
    declares: every state takes its rate from an output that [setup]
    declares and every output is the rate of a state; every target of a
    state or of the control is an input that [setup] declares; and among the
    declared inputs exactly [g] is fed by nothing, so it keeps its
    default. *)
Theorem phase_wiring (nn : nat) (c : Component F) :
  setup nn = Ok c →
  (∀ s, s ∈ Phase.states → Phase.rate_source s ∈ dom (outputs c)) ∧
  (∀ o, o ∈ dom (outputs c) → ∃ s, s ∈ Phase.states ∧ Phase.rate_source s = o) ∧
  (∀ t, t ∈ Phase.targeted → t ∈ dom (inputs c)) ∧
  "g" ∈ dom (inputs c) ∧
  (∀ n, n ∈ dom (inputs c) → (n ∉ Phase.targeted ↔ n = "g")).
Proof.
  rewrite setup_closed. intros [= <-]. simpl.
  rewrite dom_outputs_of, dom_inputs_of.
  split; [|split; [|split; [|split]]].
  - intros s Hs. unfold Phase.states in Hs.
    rewrite !elem_of_cons, elem_of_nil in Hs.
    destruct Hs as [-> | [-> | [-> | []]]]; simpl; set_solver.
  - intros o Ho. rewrite !elem_of_union, !elem_of_singleton in Ho.
    unfold Phase.states. destruct Ho as [[-> | ->] | ->]; eexists.
    + split; [apply list_elem_of_here | reflexivity].
    + split; [apply list_elem_of_further, list_elem_of_here | reflexivity].
    + split; [do 2 apply list_elem_of_further; apply list_elem_of_here | reflexivity].
  - intros t Ht. change Phase.targeted with ["v"; "theta"] in Ht.
    rewrite !elem_of_cons, elem_of_nil in Ht.
    destruct Ht as [-> | [-> | []]]; set_solver.
  - set_solver.
  - intros n Hn. change Phase.targeted with ["v"; "theta"].
    rewrite !elem_of_cons, elem_of_nil.
    rewrite !elem_of_union, !elem_of_singleton in Hn.
    destruct Hn as [[-> | ->] | ->]; split; intros Hx; try reflexivity; try discriminate.
    + exfalso. apply Hx. left. reflexivity.
    + intros [Hg | [Hg | []]]; discriminate.
    + exfalso. apply Hx. right. left. reflexivity.
Qed.
End Wiring.

Lemma phase_wiring_witness :
  ∃ c : Component R, setup 2 = Ok c ∧
    ∀ s, s ∈ Phase.states → Phase.rate_source s ∈ dom (outputs c).
Proof.
  eexists. split; [exact example_setup|].
  exact (proj1 (phase_wiring 2 _ example_setup)).
Defined.

(** ** The paraboloid problem *)

Section ParaboloidOptimum.
Local Open Scope R_scope.

(** X14. The problem that the paraboloid script poses has the solution
    [(7, -7)] with [f = -27]: that point is inside the bounds and satisfies
    the constraint, [f] is at least [-27] wherever the constraint [x + y >= 0]
    holds, and [(7, -7)] is the only feasible point where [f] is [-27]. *)
Theorem paraboloid_constrained_minimum :
  ParaboloidProblem.feasible 7 (-7) ∧
  ParaboloidProblem.f 7 (-7) = -27 ∧
  (∀ x y, 0 <= ParaboloidProblem.c x y → -27 <= ParaboloidProblem.f x y) ∧
  (∀ x y, ParaboloidProblem.feasible x y → ParaboloidProblem.f x y = -27 →
          x = 7 ∧ y = -7).
Proof.
  unfold ParaboloidProblem.feasible, ParaboloidProblem.f, ParaboloidProblem.c.
  split; [lra|]. split; [ring|]. split.
  - intros x y Hc.
    replace ((x - 3) ^ 2 + x * y + (y + 4) ^ 2 - 3)
      with ((x - 7 + (y + 7) / 2) ^ 2 + 3 / 4 * (y + 7) ^ 2 + (x + y) - 27) by field.
    pose proof (pow2_ge_0 (x - 7 + (y + 7) / 2)). pose proof (pow2_ge_0 (y + 7)). lra.
  - intros x y (_ & _ & Hc) Hf.
    replace ((x - 3) ^ 2 + x * y + (y + 4) ^ 2 - 3)
      with ((x - 7 + (y + 7) / 2) ^ 2 + 3 / 4 * (y + 7) ^ 2 + (x + y) - 27) in Hf by field.
    pose proof (pow2_ge_0 (x - 7 + (y + 7) / 2)) as H1.
    pose proof (pow2_ge_0 (y + 7)) as H2.
    assert (Hy : (y + 7) ^ 2 = 0) by lra.
    assert (Hxy : x + y = 0) by lra.
    assert (Hy0 : y + 7 = 0).
    { destruct (Req_dec (y + 7) 0) as [Hz|Hnz]; [exact Hz|].
      exfalso. exact (pow_nonzero _ 2 Hnz Hy). }
    lra.
Qed.

(** X15. The constraint of the paraboloid problem is active: without it [f]
    has its smallest value [-82/3] at [(20/3, -22/3)], where [x + y] is
    negative; and the starting point [(3, -4)] of the script, where [f] is
    [-15], violates the constraint as well. *)
Theorem paraboloid_constraint_active :
  (∀ x y, ParaboloidProblem.f (20 / 3) (- 22 / 3) <= ParaboloidProblem.f x y) ∧
  ParaboloidProblem.f (20 / 3) (- 22 / 3) = - 82 / 3 ∧
  ParaboloidProblem.c (20 / 3) (- 22 / 3) < 0 ∧
  ParaboloidProblem.f ParaboloidProblem.x_start ParaboloidProblem.y_start = -15 ∧
  ParaboloidProblem.c ParaboloidProblem.x_start ParaboloidProblem.y_start < 0 ∧
  ¬ ParaboloidProblem.feasible ParaboloidProblem.x_start ParaboloidProblem.y_start.
Proof.
  unfold ParaboloidProblem.feasible, ParaboloidProblem.f, ParaboloidProblem.c,
    ParaboloidProblem.x_start, ParaboloidProblem.y_start.
  split.
  - intros x y.
    assert (Hid : (x - 3) ^ 2 + x * y + (y + 4) ^ 2 - 3
                  = (x + y / 2 - 3) ^ 2 + 3 / 4 * (y + 22 / 3) ^ 2 - 82 / 3) by field.
    rewrite Hid.
    replace ((20 / 3 - 3) ^ 2 + 20 / 3 * (- 22 / 3) + (- 22 / 3 + 4) ^ 2 - 3)
      with (- 82 / 3) by field.
    pose proof (pow2_ge_0 (x + y / 2 - 3)). pose proof (pow2_ge_0 (y + 22 / 3)). lra.
  - split; [field|]. split; [lra|]. split; [ring|]. split; [lra|].
    intros (_ & _ & Hc). lra.
Qed.
End ParaboloidOptimum.

(** ** The whole configuration of the brachistochrone driver *)

Section DriverConfigurations.

Lemma brachistochrone_main_of_args (argv : list (string * string))
    (args : gmap string string) (optimizer algorithm : string) :
  Argparse.parse_args Brachistochrone.parser argv = Ok args →
  args !! "optimizer" = Some optimizer → args !! "algorithm" = Some algorithm →
  Brachistochrone.main argv =
    Ok (if decide (optimizer = "SLSQP") then slsqp_config
        else if decide (algorithm = "tr") then paropt_tr_config else paropt_ip_config).
Proof.
  intros Hparse Hopt Halg.
  unfold Brachistochrone.main. rewrite Hparse, bind_Ok.
  unfold Argparse.getattr. rewrite Hopt, Halg, !bind_Ok. cbv zeta.
  destruct (decide (optimizer = "SLSQP")); [reflexivity|].
  destruct (decide (algorithm = "tr")); reflexivity.
Qed.

Lemma brachistochrone_parse (argv : list (string * string)) :
  Forall recognized argv → succeeds (Argparse.parse_args Brachistochrone.parser argv).
Proof.
  intros Hall. unfold Argparse.parse_args.
  assert (Hamb : Argparse.ambiguous Brachistochrone.parser argv = false).
  { induction Hall as [|[f value] rest [Hf | Hf] _ IH]; [reflexivity| |];
      simpl in Hf; subst f; exact IH. }
  rewrite Hamb. clear Hamb. generalize (Argparse.defaults Brachistochrone.parser).
  induction Hall as [|[f value] rest [Hf | Hf] _ IH]; intros ns.
  - eexists; reflexivity.
  - simpl in Hf; subst f.
    change (Argparse.parse Brachistochrone.parser (("--optimizer", value) :: rest) ns false)
      with (Argparse.parse Brachistochrone.parser rest (<["optimizer" := value]> ns) false).
    apply IH.
  - simpl in Hf; subst f.
    change (Argparse.parse Brachistochrone.parser (("--algorithm", value) :: rest) ns false)
      with (Argparse.parse Brachistochrone.parser rest (<["algorithm" := value]> ns) false).
    apply IH.
Qed.

(** X16. Whatever the command line, the brachistochrone script hands the
    driver one of exactly three configurations, chosen by the parsed
    arguments: optimizer [SLSQP] with no optimizer settings at all (the
    algorithm is ignored); otherwise [ParOpt] with the single setting
    [algorithm = tr] when the algorithm is [tr]; otherwise [ParOpt] with
    [algorithm = ip] and the five interior-point settings ([norm_type],
    [max_major_iters = 1000], [barrier_strategy], [starting_point_strategy],
    [qn_type]). *)
Theorem brachistochrone_configurations (argv : list (string * string))
    (args : gmap string string) :
  Argparse.parse_args Brachistochrone.parser argv = Ok args →
  ∃ optimizer algorithm,
    args !! "optimizer" = Some optimizer ∧ args !! "algorithm" = Some algorithm ∧
    Brachistochrone.main argv =
      Ok (if decide (optimizer = "SLSQP") then slsqp_config
          else if decide (algorithm = "tr") then paropt_tr_config else paropt_ip_config).
Proof.
  intros Hparse.
  destruct (parse_args_keeps_keys _ _ _ "optimizer" Hparse) as [optimizer Hopt];
    [eexists; reflexivity|].
  destruct (parse_args_keeps_keys _ _ _ "algorithm" Hparse) as [algorithm Halg];
    [eexists; reflexivity|].
  exists optimizer, algorithm. do 2 (split; [assumption|]).
  apply (brachistochrone_main_of_args argv args); assumption.
Qed.

Lemma brachistochrone_configurations_witness :
  Argparse.parse_args Brachistochrone.parser [] =
    Ok {[ "optimizer" := "ParOpt"; "algorithm" := "tr" ]} ∧
  Brachistochrone.main [] = Ok paropt_tr_config.
Proof.
  split; [reflexivity|].
  destruct (brachistochrone_configurations []
              {[ "optimizer" := "ParOpt"; "algorithm" := "tr" ]} eq_refl)
    as (optimizer & algorithm & Hopt & Halg & Hmain).
  injection Hopt as <-. injection Halg as <-. exact Hmain.
Defined.

(** X17. The brachistochrone script places no restriction on the values of
    its two options: a command line made of [--optimizer] and [--algorithm]
    occurrences whose values do not start with a dash reaches the driver,
    whatever those values are and however often the options are repeated. *)
Theorem brachistochrone_accepts (argv : list (string * string)) :
  Forall (λ p, recognized p ∧ plain p.2) argv → succeeds (Brachistochrone.main argv).
Proof.
  intros Hall.
  assert (Hrec : Forall recognized argv)
    by (eapply Forall_impl; [exact Hall | intros p [Hp _]; exact Hp]).
  destruct (brachistochrone_parse argv Hrec) as [args Hparse].
  destruct (parse_args_keeps_keys _ _ _ "optimizer" Hparse) as [optimizer Hopt];
    [eexists; reflexivity|].
  destruct (parse_args_keeps_keys _ _ _ "algorithm" Hparse) as [algorithm Halg];
    [eexists; reflexivity|].
  eexists. apply (brachistochrone_main_of_args argv args optimizer algorithm); assumption.
Qed.

Lemma brachistochrone_accepts_witness :
  Forall (λ p, recognized p ∧ plain p.2)
    [("--algorithm", "anything"); ("--optimizer", "SLSQP"); ("--algorithm", "")] ∧
  succeeds (Brachistochrone.main
              [("--algorithm", "anything"); ("--optimizer", "SLSQP"); ("--algorithm", "")]).
Proof.
  assert (Hall : Forall (λ p, recognized p ∧ plain p.2)
            [("--algorithm", "anything"); ("--optimizer", "SLSQP"); ("--algorithm", "")]).
  { constructor; [split; [right|]; reflexivity|].
    constructor; [split; [left|]; reflexivity|].
    constructor; [split; [right|]; reflexivity|]. constructor. }
  split; [exact Hall|]. exact (brachistochrone_accepts _ Hall).
Defined.
End DriverConfigurations.

Section JacobianIdempotent.
Context {F : Type} `{Scalar F}.

Lemma jac_setitem_fixed (of_ wrt : string) (value : list F) (sj : Om.Subjac F)
    (jac : gmap (string * string) (Om.Subjac F)) :
  jac !! (of_, wrt) = Some sj → Np.assign (Om.val sj) value = Ok (Om.val sj) →
  Om.jac_setitem of_ wrt value jac = Ok jac.
Proof.
  intros Hlook Hassign. unfold Om.jac_setitem. rewrite Hlook, Hassign, bind_Ok.
  f_equal. apply insert_id. rewrite Hlook. destruct sj; reflexivity.
Qed.

(** X18. [compute_partials] is idempotent on the Jacobian: calling it again
    with the same inputs on the Jacobian a first call left behind returns
    and changes nothing. *)
Theorem compute_partials_idempotent (inp : gmap string (list F))
    (jac jac' : gmap (string * string) (Om.Subjac F)) :
  compute_partials inp jac = Ok jac' → compute_partials inp jac' = Ok jac'.
Proof.
  unfold compute_partials, Om.getitem. intros Hcomp.
  destruct (inp !! "theta") as [theta|]; [|discriminate].
  destruct (inp !! "g") as [g|]; [|discriminate].
  destruct (inp !! "v") as [v|]; [|discriminate].
  rewrite !bind_Ok in Hcomp |- *. cbv zeta in Hcomp |- *.
  apply bind_Ok_inv in Hcomp as (jac1 & Hs1 & Hcomp).
  apply bind_Ok_inv in Hcomp as (a2 & Ha2 & Hcomp).
  apply bind_Ok_inv in Hcomp as (jac2 & Hs2 & Hcomp).
  apply bind_Ok_inv in Hcomp as (jac3 & Hs3 & Hcomp).
  apply bind_Ok_inv in Hcomp as (a4 & Ha4 & Hcomp).
  apply bind_Ok_inv in Hcomp as (jac4 & Hs4 & Hcomp).
  apply bind_Ok_inv in Hcomp as (jac5 & Hs5 & Hcomp).
  apply bind_Ok_inv in Hcomp as (a6 & Ha6 & Hs6).
  apply jac_setitem_inv in Hs1 as (s1 & n1 & _ & Hn1 & ->).
  apply jac_setitem_inv in Hs2 as (s2 & n2 & _ & Hn2 & ->).
  apply jac_setitem_inv in Hs3 as (s3 & n3 & _ & Hn3 & ->).
  apply jac_setitem_inv in Hs4 as (s4 & n4 & _ & Hn4 & ->).
  apply jac_setitem_inv in Hs5 as (s5 & n5 & _ & Hn5 & ->).
  apply jac_setitem_inv in Hs6 as (s6 & n6 & _ & Hn6 & ->).
  apply assign_fixed in Hn1, Hn2, Hn3, Hn4, Hn5, Hn6.
  rewrite Ha2, Ha4, Ha6.
  rewrite (jac_setitem_fixed "vdot" "g" _
             {| Om.rows := Om.rows s1; Om.cols := Om.cols s1; Om.val := n1 |}), bind_Ok;
    [|by simplify_map_eq|exact Hn1].
  rewrite bind_Ok.
  rewrite (jac_setitem_fixed "vdot" "theta" _
             {| Om.rows := Om.rows s2; Om.cols := Om.cols s2; Om.val := n2 |}), bind_Ok;
    [|by simplify_map_eq|exact Hn2].
  rewrite (jac_setitem_fixed "xdot" "v" _
             {| Om.rows := Om.rows s3; Om.cols := Om.cols s3; Om.val := n3 |}), bind_Ok;
    [|by simplify_map_eq|exact Hn3].
  rewrite bind_Ok.
  rewrite (jac_setitem_fixed "xdot" "theta" _
             {| Om.rows := Om.rows s4; Om.cols := Om.cols s4; Om.val := n4 |}), bind_Ok;
    [|by simplify_map_eq|exact Hn4].
  rewrite (jac_setitem_fixed "ydot" "v" _
             {| Om.rows := Om.rows s5; Om.cols := Om.cols s5; Om.val := n5 |}), bind_Ok;
    [|by simplify_map_eq|exact Hn5].
  rewrite bind_Ok.
  apply (jac_setitem_fixed "ydot" "theta" _
           {| Om.rows := Om.rows s6; Om.cols := Om.cols s6; Om.val := n6 |});
    [by simplify_map_eq|exact Hn6].
Qed.
End JacobianIdempotent.

Lemma compute_partials_idempotent_witness :
  compute_partials (inputs example_state) (partials example_state) =
    Ok (partials_of 2 (Np.cos [0; 0]%R) (dvdot_dtheta_of 10%R [0; 0]%R)
          (Np.sin [0; 0]%R) (dxdot_dtheta_of [3; 4]%R [0; 0]%R)
          (Np.neg (Np.cos [0; 0]%R)) (dydot_dtheta_of [3; 4]%R [0; 0]%R)) ∧
  compute_partials (inputs example_state)
    (partials_of 2 (Np.cos [0; 0]%R) (dvdot_dtheta_of 10%R [0; 0]%R)
       (Np.sin [0; 0]%R) (dxdot_dtheta_of [3; 4]%R [0; 0]%R)
       (Np.neg (Np.cos [0; 0]%R)) (dydot_dtheta_of [3; 4]%R [0; 0]%R)) =
    Ok (partials_of 2 (Np.cos [0; 0]%R) (dvdot_dtheta_of 10%R [0; 0]%R)
          (Np.sin [0; 0]%R) (dxdot_dtheta_of [3; 4]%R [0; 0]%R)
          (Np.neg (Np.cos [0; 0]%R)) (dydot_dtheta_of [3; 4]%R [0; 0]%R)).
Proof.
  split; [exact example_compute_partials|].
  exact (compute_partials_idempotent _ _ _ example_compute_partials).
Defined.

(** ** What [compute] leaves untouched *)

Section Frame.
Context {F : Type} `{Scalar F}.

Lemma action_bind_inv {A B : Type} (c : Mem.action F A) (f : A → Mem.action F B)
    (m m2 : Mem.memory F) (b : B) :
  (c ≫= f) m = Ok (b, m2) → ∃ a m1, c m = Ok (a, m1) ∧ f a m1 = Ok (b, m2).
Proof.
  unfold mbind, Mem.action_bind. destruct (c m) as [[a m1]|e]; [eauto | discriminate].
Qed.

Lemma frame_refl (written : list nat) (m : Mem.memory F) : Mem.frame written m m.
Proof. unfold Mem.frame. auto 10. Qed.

Lemma frame_trans (w1 w2 : list nat) (m1 m2 m3 : Mem.memory F) :
  Mem.frame w1 m1 m2 → Mem.frame w2 m2 m3 → Mem.frame (w1 ++ w2) m1 m3.
Proof.
  intros (Hi1 & Ho1 & Hn1 & Hj1 & Hl1 & Hh1) (Hi2 & Ho2 & Hn2 & Hj2 & Hl2 & Hh2).
  unfold Mem.frame. repeat split; try congruence; [lia|].
  intros a Ha Hw. rewrite elem_of_app in Hw.
  rewrite Hh2 by (first [lia | tauto]). apply Hh1; [exact Ha | tauto].
Qed.

Lemma new_array_frame (data : list F) (m m' : Mem.memory F) (a : nat) :
  Mem.new_array data m = Ok (a, m') → Mem.frame [] m m'.
Proof.
  unfold Mem.new_array. intros [= _ <-]. unfold Mem.frame. simpl.
  repeat split; [rewrite length_app; lia|].
  intros b Hb _. apply lookup_app_l, Hb.
Qed.

Lemma getitem_inv (vec : Mem.vector) (name : string) (m m' : Mem.memory F) (a : nat) :
  Mem.getitem vec name m = Ok (a, m') → m' = m ∧ Mem.addresses vec m !! name = Some a.
Proof.
  unfold Mem.getitem. destruct (Mem.addresses vec m !! name) as [a'|]; [|discriminate].
  intros [= <- <-]. auto.
Qed.

Lemma np_mul_frame (a b c : nat) (m m' : Mem.memory F) :
  Mem.np_mul a b m = Ok (c, m') → Mem.frame [] m m'.
Proof.
  unfold Mem.np_mul. destruct (Np.mul _ _) as [data|e]; [|discriminate].
  apply new_array_frame.
Qed.

Lemma setitem_frame (vec : Mem.vector) (name : string) (value : nat)
    (m m' : Mem.memory F) :
  Mem.setitem vec name value m = Ok ((), m') →
  ∃ dst, Mem.addresses vec m !! name = Some dst ∧ Mem.frame [dst] m m'.
Proof.
  unfold Mem.setitem. destruct (Mem.addresses vec m !! name) as [dst|]; [|discriminate].
  destruct (Np.assign _ _) as [new|e]; [|discriminate].
  intros [= <-]. exists dst. split; [reflexivity|].
  unfold Mem.frame. simpl. repeat split; [rewrite length_insert; lia|].
  intros a _ Ha. apply list_lookup_insert_ne. set_solver.
Qed.

(** The arrays [compute] writes are those of [vdot], [xdot] and [ydot]. *)
Lemma compute_writes (m m' : Mem.memory F) :
  Mem.compute m = Ok ((), m') →
  ∃ dv dx dy,
    Mem.outputs_at m !! "vdot" = Some dv ∧ Mem.outputs_at m !! "xdot" = Some dx ∧
    Mem.outputs_at m !! "ydot" = Some dy ∧ Mem.frame [dv; dx; dy] m m'.
Proof.
  unfold Mem.compute. intros Hrun.
  apply action_bind_inv in Hrun as (theta & m1 & H1 & Hrun).
  apply action_bind_inv in Hrun as (cos_theta & m2 & H2 & Hrun).
  apply action_bind_inv in Hrun as (sin_theta & m3 & H3 & Hrun).
  apply action_bind_inv in Hrun as (g & m4 & H4 & Hrun).
  apply action_bind_inv in Hrun as (v & m5 & H5 & Hrun).
  apply action_bind_inv in Hrun as (vdot & m6 & H6 & Hrun).
  apply action_bind_inv in Hrun as ([] & m7 & H7 & Hrun).
  apply action_bind_inv in Hrun as (xdot & m8 & H8 & Hrun).
  apply action_bind_inv in Hrun as ([] & m9 & H9 & Hrun).
  apply action_bind_inv in Hrun as (minus_v & m10 & H10 & Hrun).
  apply action_bind_inv in Hrun as (ydot & m11 & H11 & H12).
  apply getitem_inv in H1 as [-> _]. apply new_array_frame in H2, H3.
  apply getitem_inv in H4 as [-> _]. apply getitem_inv in H5 as [-> _].
  apply np_mul_frame in H6. apply setitem_frame in H7 as (dv & Hdv & H7).
  apply np_mul_frame in H8. apply setitem_frame in H9 as (dx & Hdx & H9).
  apply new_array_frame in H10. apply np_mul_frame in H11.
  apply setitem_frame in H12 as (dy & Hdy & H12).
  pose proof (frame_trans _ _ _ _ _ H2 H3) as F3.
  pose proof (frame_trans _ _ _ _ _ F3 H6) as F6.
  pose proof (frame_trans _ _ _ _ _ F6 H7) as F7.
  pose proof (frame_trans _ _ _ _ _ F7 H8) as F8.
  pose proof (frame_trans _ _ _ _ _ F8 H9) as F9.
  pose proof (frame_trans _ _ _ _ _ F9 H10) as F10.
  pose proof (frame_trans _ _ _ _ _ F10 H11) as F11.
  pose proof (frame_trans _ _ _ _ _ F11 H12) as F12.
  simpl in Hdv, Hdx, Hdy, F6, F8, F12.
  exists dv, dx, dy.
  destruct F6 as (_ & Ho6 & _). destruct F8 as (_ & Ho8 & _).
  destruct F11 as (_ & Ho11 & _).
  rewrite Ho6 in Hdv. rewrite Ho8 in Hdx. rewrite Ho11 in Hdy.
  auto.
Qed.

(** C9. Frame condition of the rate evaluation, with the arrays in memory:
    a call of [compute] that returns changes no array that existed before
    the call other than the arrays of the three outputs [xdot], [ydot],
    [vdot]; the vectors map the same names to the same arrays, and
    [num_nodes] and the Jacobian are as before.  In a memory in which every
    variable has an array of its own, the input vector therefore holds the
    same values after the call: [v], [theta] and [g] are unchanged. *)
Theorem compute_frame (m m' : Mem.memory F) :
  Mem.compute m = Ok ((), m') →
  Mem.inputs_at m' = Mem.inputs_at m ∧
  Mem.outputs_at m' = Mem.outputs_at m ∧
  Mem.option_num_nodes m' = Mem.option_num_nodes m ∧
  Mem.jacobian m' = Mem.jacobian m ∧
  (∀ a, a < length (Mem.heap m) →
     (∀ name, name ∈ ["xdot"; "ydot"; "vdot"] → Mem.outputs_at m !! name ≠ Some a) →
     Mem.heap m' !! a = Mem.heap m !! a) ∧
  (Mem.well_formed m → Mem.values Mem.Inputs m' = Mem.values Mem.Inputs m).
Proof.
  intros Hrun.
  apply compute_writes in Hrun
    as (dv & dx & dy & Hdv & Hdx & Hdy & Hin & Hout & Hnn & Hjac & _ & Hheap).
  do 4 (split; [assumption|]).
  assert (Hkeep : ∀ a, a < length (Mem.heap m) →
            (∀ name, name ∈ ["xdot"; "ydot"; "vdot"] → Mem.outputs_at m !! name ≠ Some a) →
            Mem.heap m' !! a = Mem.heap m !! a).
  { intros a Ha Hother. apply Hheap; [exact Ha|].
    rewrite !elem_of_cons, elem_of_nil. intros [-> | [-> | [-> | []]]].
    - apply (Hother "vdot"); [set_solver | exact Hdv].
    - apply (Hother "xdot"); [set_solver | exact Hdx].
    - apply (Hother "ydot"); [set_solver | exact Hdy]. }
  split; [exact Hkeep|].
  intros [Hwi _ Hapart _]. unfold Mem.values. simpl. rewrite Hin.
  apply map_fmap_ext. intros name a Ha. unfold Mem.read. f_equal.
  apply Hkeep; [exact (Hwi _ _ Ha)|].
  intros out _ Hout'. exact (Hapart _ _ _ Ha Hout').
Qed.
End Frame.

(** ** The two embeddings of [compute] agree *)

Section Agreement.
Context {F : Type} `{Scalar F}.

Local Ltac members :=
  unfold subseteq, list_subseteq; intros;
  rewrite ?elem_of_cons, ?elem_of_nil in *;
  intuition (subst; first [assumption | congruence | lia]).

Lemma frame_read (written : list nat) (m m' : Mem.memory F) (a : nat) :
  Mem.frame written m m' → a < length (Mem.heap m) → a ∉ written →
  Mem.read m' a = Mem.read m a.
Proof.
  intros (_ & _ & _ & _ & _ & Hheap) Ha Hw. unfold Mem.read. f_equal. apply Hheap; assumption.
Qed.

Lemma new_array_spec (data : list F) (m m' : Mem.memory F) (a : nat) :
  Mem.new_array data m = Ok (a, m') →
  a = length (Mem.heap m) ∧ length (Mem.heap m') = S (length (Mem.heap m)) ∧
  Mem.read m' a = data.
Proof.
  unfold Mem.new_array. intros [= <- <-]. simpl. split; [reflexivity|].
  split; [rewrite length_app; simpl; lia|].
  unfold Mem.read. simpl. rewrite lookup_app_r, Nat.sub_diag by lia. reflexivity.
Qed.

Lemma np_mul_spec (a b c : nat) (m m' : Mem.memory F) :
  Mem.np_mul a b m = Ok (c, m') →
  Np.mul (Mem.read m a) (Mem.read m b) = Ok (Mem.read m' c) ∧
  c = length (Mem.heap m) ∧ length (Mem.heap m') = S (length (Mem.heap m)).
Proof.
  unfold Mem.np_mul. destruct (Np.mul _ _) as [data|e]; [|discriminate].
  intros Hnew. apply new_array_spec in Hnew as (-> & Hlen & ->). auto.
Qed.

Lemma setitem_spec (vec : Mem.vector) (name : string) (value : nat)
    (m m' : Mem.memory F) :
  Mem.setitem vec name value m = Ok ((), m') →
  ∃ dst new, Mem.addresses vec m !! name = Some dst ∧
    Np.assign (Mem.read m dst) (Mem.read m value) = Ok new ∧
    length (Mem.heap m') = length (Mem.heap m) ∧
    (dst < length (Mem.heap m) → Mem.read m' dst = new).
Proof.
  unfold Mem.setitem. destruct (Mem.addresses vec m !! name) as [dst|]; [|discriminate].
  destruct (Np.assign _ _) as [new|e] eqn:Hassign; [|discriminate].
  intros [= <-]. exists dst, new. simpl.
  split; [reflexivity|]. split; [exact Hassign|]. split; [apply length_insert|].
  intros Hdst. unfold Mem.read. simpl. rewrite list_lookup_insert_eq by exact Hdst.
  reflexivity.
Qed.

(** A call of [compute] on the arrays in memory computes what [compute] on
    the values computes. *)
Lemma compute_in_memory (m m' : Mem.memory F) :
  Mem.well_formed m → Mem.compute m = Ok ((), m') →
  compute (Mem.values Mem.Inputs m) (Mem.values Mem.Outputs m)
    = Ok (Mem.values Mem.Outputs m').
Proof.
  intros [Hwi Hwo Hapart Hinj] Hrun. unfold Mem.compute in Hrun.
  apply action_bind_inv in Hrun as (theta & m1 & H1 & Hrun).
  apply action_bind_inv in Hrun as (cos_theta & m2 & H2 & Hrun).
  apply action_bind_inv in Hrun as (sin_theta & m3 & H3 & Hrun).
  apply action_bind_inv in Hrun as (g & m4 & H4 & Hrun).
  apply action_bind_inv in Hrun as (v & m5 & H5 & Hrun).
  apply action_bind_inv in Hrun as (vdot & m6 & H6 & Hrun).
  apply action_bind_inv in Hrun as ([] & m7 & H7 & Hrun).
  apply action_bind_inv in Hrun as (xdot & m8 & H8 & Hrun).
  apply action_bind_inv in Hrun as ([] & m9 & H9 & Hrun).
  apply action_bind_inv in Hrun as (minus_v & m10 & H10 & Hrun).
  apply action_bind_inv in Hrun as (ydot & m11 & H11 & H12).
  apply getitem_inv in H1 as [-> Ht]. simpl in Ht.
  pose proof (new_array_frame _ _ _ _ H2) as F2. apply new_array_spec in H2 as (Ec & L2 & Rc).
  pose proof (new_array_frame _ _ _ _ H3) as F3. apply new_array_spec in H3 as (Es & L3 & Rs).
  apply getitem_inv in H4 as [-> Hg]. apply getitem_inv in H5 as [-> Hv].
  pose proof (np_mul_frame _ _ _ _ _ H6) as F6. apply np_mul_spec in H6 as (M6 & E6 & L6).
  pose proof (setitem_frame _ _ _ _ _ H7) as (dv & Hdv & F7).
  apply setitem_spec in H7 as (dv' & n1 & Hdv' & A7 & L7 & R7).
  pose proof (np_mul_frame _ _ _ _ _ H8) as F8. apply np_mul_spec in H8 as (M8 & E8 & L8).
  pose proof (setitem_frame _ _ _ _ _ H9) as (dx & Hdx & F9).
  apply setitem_spec in H9 as (dx' & n2 & Hdx' & A9 & L9 & R9).
  pose proof (new_array_frame _ _ _ _ H10) as F10.
  apply new_array_spec in H10 as (En & L10 & Rn).
  pose proof (np_mul_frame _ _ _ _ _ H11) as F11. apply np_mul_spec in H11 as (M11 & E11 & L11).
  pose proof (setitem_frame _ _ _ _ _ H12) as (dy & Hdy & F12).
  apply setitem_spec in H12 as (dy' & n3 & Hdy' & A12 & L12 & R12).
  (* the vectors keep their addresses *)
  pose proof (frame_trans _ _ _ _ _ F2 F3) as C3.
  pose proof (frame_trans _ _ _ _ _ C3 F6) as C6.
  pose proof (frame_trans _ _ _ _ _ C6 F7) as C7.
  pose proof (frame_trans _ _ _ _ _ C7 F8) as C8.
  pose proof (frame_trans _ _ _ _ _ C8 F9) as C9.
  pose proof (frame_trans _ _ _ _ _ C9 F10) as C10.
  pose proof (frame_trans _ _ _ _ _ C10 F11) as C11.
  pose proof (frame_trans _ _ _ _ _ C11 F12) as C12.
  simpl in C3, C6, C7, C8, C9, C10, C11, C12.
  pose proof C3 as (Hi3 & _). pose proof C6 as (_ & Ho6 & _).
  pose proof C8 as (_ & Ho8 & _). pose proof C11 as (_ & Ho11 & _).
  pose proof C12 as (_ & Ho12 & _).
  simpl in Hg, Hv, Hdv, Hdv', Hdx, Hdx', Hdy, Hdy'.
  rewrite Hi3 in Hg, Hv. rewrite Ho6 in Hdv, Hdv'. rewrite Ho8 in Hdx, Hdx'.
  rewrite Ho11 in Hdy, Hdy'.
  assert (dv' = dv) as -> by congruence. assert (dx' = dx) as -> by congruence.
  assert (dy' = dy) as -> by congruence. clear Hdv' Hdx' Hdy'.
  pose proof (Hwi _ _ Ht) as Bt. pose proof (Hwi _ _ Hg) as Bg.
  pose proof (Hwi _ _ Hv) as Bv. pose proof (Hwo _ _ Hdv) as Bdv.
  pose proof (Hwo _ _ Hdx) as Bdx. pose proof (Hwo _ _ Hdy) as Bdy.
  assert (Nvx : dv ≠ dx) by (intros ->; discriminate (Hinj _ _ _ Hdv Hdx)).
  assert (Nvy : dv ≠ dy) by (intros ->; discriminate (Hinj _ _ _ Hdv Hdy)).
  assert (Nxy : dx ≠ dy) by (intros ->; discriminate (Hinj _ _ _ Hdx Hdy)).
  assert (Niv : ∀ name a, Mem.inputs_at m !! name = Some a → a ∉ [dv; dx; dy]).
  { intros name a Ha. rewrite !elem_of_cons, elem_of_nil.
    intros [-> | [-> | [-> | []]]]; eapply Hapart; eassumption. }
  (* what the temporaries hold *)
  assert (Rcos : ∀ mk w, Mem.frame w m2 mk → (∀ a, a ∈ w → a < length (Mem.heap m)) →
            Mem.read mk cos_theta = Np.cos (Mem.read m theta)).
  { intros mk w Fk Hw. rewrite (frame_read w m2 mk cos_theta Fk); [exact Rc | lia |].
    intros Hin. apply Hw in Hin. lia. }
  assert (Rsin : ∀ mk w, Mem.frame w m3 mk → (∀ a, a ∈ w → a < length (Mem.heap m)) →
            Mem.read mk sin_theta = Np.sin (Mem.read m theta)).
  { intros mk w Fk Hw. rewrite (frame_read w m3 mk sin_theta Fk); [| lia |].
    - rewrite Rs. f_equal. apply (frame_read [] m m2 theta F2 Bt). members.
    - intros Hin. apply Hw in Hin. lia. }
  assert (Rin : ∀ mk w name a, Mem.frame w m mk → w ⊆ [dv; dx; dy] →
            Mem.inputs_at m !! name = Some a → Mem.read mk a = Mem.read m a).
  { intros mk w name a Fk Hw Ha. apply (frame_read w m mk a Fk (Hwi _ _ Ha)).
    intros Hin. apply (Niv _ _ Ha). apply Hw, Hin. }
  assert (Wv : ∀ a, a ∈ [dv] → a < length (Mem.heap m)) by members.
  assert (Wvx : ∀ a, a ∈ [dv; dx] → a < length (Mem.heap m)) by members.
  (* the three products and the three assignments, on values of [m] *)
  rewrite (Rin m3 [] "g" g C3) in M6 by (first [assumption | members]).
  rewrite (Rcos m3 [] F3) in M6 by members.
  rewrite (frame_read [] m m6 dv C6 Bdv) in A7 by members.
  rewrite (Rin m7 [dv] "v" v C7) in M8 by (first [assumption | members]).
  rewrite (Rsin m7 [dv] (frame_trans _ _ _ _ _ F6 F7)) in M8 by exact Wv.
  rewrite (frame_read [dv] m m8 dx C8 Bdx) in A9 by members.
  rewrite (Rin m9 [dv; dx] "v" v C9) in Rn by (first [assumption | members]).
  rewrite Rn in M11.
  pose proof (frame_trans _ _ _ _ _ F3 (frame_trans _ _ _ _ _ F6 (frame_trans _ _ _ _ _ F7
    (frame_trans _ _ _ _ _ F8 (frame_trans _ _ _ _ _ F9 F10))))) as C2_10.
  simpl in C2_10.
  rewrite (Rcos m10 [dv; dx] C2_10) in M11 by exact Wvx.
  rewrite (frame_read [dv; dx] m m11 dy C11 Bdy) in A12 by members.
  (* the same steps on the values *)
  assert (Hlook : ∀ name a, Mem.inputs_at m !! name = Some a →
            Om.getitem name (Mem.values Mem.Inputs m) = Ok (Mem.read m a)).
  { intros name a Ha. unfold Om.getitem, Mem.values. simpl.
    rewrite lookup_fmap, Ha. reflexivity. }
  unfold compute.
  rewrite (Hlook _ _ Ht), (Hlook _ _ Hg), (Hlook _ _ Hv), !bind_Ok. cbv zeta.
  assert (Hold : ∀ name a, Mem.outputs_at m !! name = Some a →
            Mem.values Mem.Outputs m !! name = Some (Mem.read m a)).
  { intros name a Ha. unfold Mem.values. simpl. rewrite lookup_fmap, Ha. reflexivity. }
  assert (Hset : ∀ name value old new (vec : gmap string (list F)),
            vec !! name = Some old → Np.assign old value = Ok new →
            Om.setitem name value vec = Ok (<[name := new]> vec)).
  { intros name value old new vec Hvec Hassign. unfold Om.setitem.
    rewrite Hvec, Hassign. reflexivity. }
  rewrite M6, bind_Ok.
  rewrite (Hset "vdot" _ _ _ _ (Hold _ _ Hdv) A7), bind_Ok.
  rewrite M8, bind_Ok.
  rewrite (Hset "xdot" _ (Mem.read m dx) n2), bind_Ok;
    [|rewrite lookup_insert_ne by discriminate; exact (Hold _ _ Hdx)|exact A9].
  rewrite M11, bind_Ok.
  rewrite (Hset "ydot" _ (Mem.read m dy) n3);
    [|rewrite !lookup_insert_ne by discriminate; exact (Hold _ _ Hdy)|exact A12].
  f_equal. apply map_eq. intros name.
  assert (Ry : Mem.read m' dy = n3) by (apply R12; lia).
  assert (Rx : Mem.read m' dx = n2).
  { rewrite <- R9 by lia.
    apply (frame_read [dy] m9 m' dx
             (frame_trans _ _ _ _ _ F10 (frame_trans _ _ _ _ _ F11 F12))); [lia|].
    members. }
  assert (Rv : Mem.read m' dv = n1).
  { rewrite <- R7 by lia.
    apply (frame_read [dx; dy] m7 m' dv
             (frame_trans _ _ _ _ _ F8 (frame_trans _ _ _ _ _ F9
                (frame_trans _ _ _ _ _ F10 (frame_trans _ _ _ _ _ F11 F12))))); [lia|].
    members. }
  unfold Mem.values at 2. simpl Mem.addresses. rewrite lookup_fmap, Ho12.
  destruct (decide (name = "ydot")) as [->|Ny].
  { rewrite lookup_insert_eq, Hdy. simpl. congruence. }
  rewrite lookup_insert_ne by congruence.
  destruct (decide (name = "xdot")) as [->|Nx].
  { rewrite lookup_insert_eq, Hdx. simpl. congruence. }
  rewrite lookup_insert_ne by congruence.
  destruct (decide (name = "vdot")) as [->|Nv].
  { rewrite lookup_insert_eq, Hdv. simpl. congruence. }
  rewrite lookup_insert_ne by congruence.
  unfold Mem.values. simpl Mem.addresses. rewrite lookup_fmap.
  destruct (Mem.outputs_at m !! name) as [a|] eqn:Ha; [|reflexivity].
  simpl. f_equal. symmetry. apply (frame_read [dv; dx; dy] m m' a C12 (Hwo _ _ Ha)).
  rewrite !elem_of_cons, elem_of_nil. intros [-> | [-> | [-> | []]]].
  - apply Nv. exact (Hinj _ _ _ Ha Hdv).
  - apply Nx. exact (Hinj _ _ _ Ha Hdx).
  - apply Ny. exact (Hinj _ _ _ Ha Hdy).
Qed.
End Agreement.

Lemma example_memory_well_formed : Mem.well_formed example_memory.
Proof.
  assert (Hin : ∀ name a, Mem.inputs_at example_memory !! name = Some a →
            (name = "v" ∧ a = 0) ∨ (name = "g" ∧ a = 1) ∨ (name = "theta" ∧ a = 2)).
  { intros name a. simpl. rewrite !lookup_insert_Some, lookup_singleton_Some.
    intuition (subst; auto). }
  assert (Hout : ∀ name a, Mem.outputs_at example_memory !! name = Some a →
            (name = "xdot" ∧ a = 3) ∨ (name = "ydot" ∧ a = 4) ∨ (name = "vdot" ∧ a = 5)).
  { intros name a. simpl. rewrite !lookup_insert_Some, lookup_singleton_Some.
    intuition (subst; auto). }
  split.
  - intros name a Ha. apply Hin in Ha. simpl. lia.
  - intros name a Ha. apply Hout in Ha. simpl. lia.
  - intros n1 n2 a H1 H2. apply Hin in H1. apply Hout in H2. lia.
  - intros n1 n2 a H1 H2. apply Hout in H1. apply Hout in H2.
    destruct H1 as [[-> ->] | [[-> ->] | [-> ->]]], H2 as [[-> ?] | [[-> ?] | [-> ?]]];
      first [reflexivity | lia].
Qed.

Lemma compute_frame_witness :
  ∃ m', Mem.compute example_memory = Ok ((), m') ∧
        Mem.values Mem.Inputs m' = Mem.values Mem.Inputs example_memory ∧
        Mem.heap m' !! 0 = Some [3; 4]%R.
Proof.
  eexists. split; [reflexivity|].
  split.
  - refine (proj2 (proj2 (proj2 (proj2 (proj2 (compute_frame example_memory _ _)))))
              example_memory_well_formed).
    reflexivity.
  - reflexivity.
Defined.
